(** * bravado: schema-driven marshalling and operation invocation

    A shallow embedding of [bravado/mapping/operation.py] (class
    [Operation]) together with the parts of the data model it touches, and
    of the marshaller that the array tests exercise.

    Python dictionaries are finite maps ([gmap]); the order in which a
    Python 2 dictionary is iterated is not fixed by the language, so every
    loop over a dictionary goes through a [DictOrder], an arbitrary
    enumeration of the map's entries.  The table [self.params] is a mutable
    dictionary object: it lives in a store and the Operation holds its
    address, so that copying it and aliasing it are different things.  The
    object, the store, the logger and the transport are threaded through a
    small state-and-exception monad [M]. *)

From stdpp Require Import gmap strings list fin_maps pretty.
From Stdlib Require Import ZArith.
From Stdlib.Strings Require Import Byte Ascii.

Set Warnings "-register-all,-clear-no-such-hyp".
Local Open Scope Z_scope.

(** ** Python values, wire JSON and schema definitions *)

(** Native Python values: what a caller passes as keyword arguments and
    what unmarshalling hands back.  A float is kept as its binary64 bit
    pattern, a calendar date and a timestamp by their fields, a model
    instance as its type name and its bag of fields. *)
Inductive Value : Type :=
  | VNone
  | VBool (b : bool)
  | VInt (z : Z)
  | VFloat (bits : Z)
  | VStr (s : string)
  | VDate (year month day : Z)
  | VDateTime (year month day hour minute second : Z)
  | VFile (content : list byte)
  | VList (l : list Value)
  | VDict (d : gmap string Value)
  | VModel (type_name : string) (fields : gmap string Value).

(** Wire JSON, as [response.json()] returns it and as marshalling
    produces it.  [JRaw] is the byte stream of a [file] primitive. *)
Inductive Json : Type :=
  | JNull
  | JBool (b : bool)
  | JInt (z : Z)
  | JFloat (bits : Z)
  | JStr (s : string)
  | JRaw (content : list byte)
  | JArr (l : list Json)
  | JObj (d : gmap string Json).

Inductive PrimType : Type := TString | TInteger | TNumber | TBoolean | TFile.

(** A node of the schema graph (a Definition of the data model).  A
    reference holds the name of its target, never the target itself. *)
Inductive Defn : Type :=
  | DPrimitive (ty : PrimType) (format : option string) (enum : list Json)
  | DArray (items : Defn)
  | DObject (name : option string)
            (properties : list (string * Defn))
            (required : list string)
  | DReference (target : string).

(** ** Outcomes and exceptions *)

Inductive outcome (E A : Type) : Type :=
  | Ok (a : A)
  | Raise (e : E).
Arguments Ok {E A} a.
Arguments Raise {E A} e.

(** The collaborators that are called from [operation.py]. *)
Inductive Callee : Type :=
  | In_marshal_param
  | In_response_json
  | In_get_swagger_type
  | In_post_receive.

(** The exceptions of [operation.py].  [TypeError] and [SwaggerError]
    are the ones its own [raise] statements build; [KeyError] comes from
    a failed subscript and is kept by its key; [AttributeError] comes
    from [.get] on a value that is no dictionary and is kept by the
    object and the attribute of the failed lookup, from which the
    interpreter words its message ([attribute_error_message]);
    [Propagated] is whatever exception escapes from a collaborator, kept
    apart from the former. *)
Inductive exn : Type :=
  | TypeError (msg : string)
  | SwaggerError (msg : string)
  | KeyError (key : string)
  | AttributeError (obj : Value) (attr : string)
  | Propagated (callee : Callee) (msg : string).

Definition Result (A : Type) : Type := outcome exn A.

Definition raises {E A} (r : outcome E A) : bool :=
  match r with Raise _ => true | Ok _ => false end.

(** ** The schema document, as far as [Operation] reads it *)

Inductive Location : Type := InPath | InQuery | InHeader | InFormData | InBody.

(** One entry of a [parameters] list. *)
Record ParamSpec : Type := mkParamSpec {
  ps_name : string;
  ps_in : Location;
  ps_required : bool;
  ps_default : option Value;
  ps_schema : Defn;
  ps_collectionFormat : option string
}.

(** [spec_dict['paths'][path_name]]; [path_parameters] is [None] when the
    path has no [parameters] key. *)
Record PathSpec : Type := mkPathSpec {
  path_parameters : option (list ParamSpec)
}.

Record SpecDict : Type := mkSpecDict {
  paths : gmap string PathSpec
}.

Record HttpClient : Type := mkHttpClient { client_id : nat }.

Record Spec : Type := mkSpec {
  spec_dict : SpecDict;
  api_url : string;
  definitions : gmap string Defn;
  http_client : HttpClient
}.

(** An entry of an operation's [responses] table; [rs_schema] is [None]
    when the entry has no [schema] key. *)
Record ResponseSpec : Type := mkResponseSpec {
  rs_schema : option Defn
}.

(** [op_spec]: each field is [None] when the key is absent. *)
Record OpSpec : Type := mkOpSpec {
  operationId : option string;
  parameters : option (list ParamSpec);
  responses : option (gmap string ResponseSpec)
}.

(** Modelled from the spec: the class [Param] of [bravado.mapping.param],
    which is not among the sources.  A Param is built from the spec and one
    parameter declaration and exposes the declaration's name, location,
    required flag and default. *)
Record Param : Type := mkParam {
  param_swagger_spec : Spec;
  param_spec : ParamSpec
}.

Definition name (p : Param) : string := ps_name (param_spec p).
Definition location (p : Param) : Location := ps_in (param_spec p).
Definition required (p : Param) : bool := ps_required (param_spec p).
Definition default_value (p : Param) : option Value := ps_default (param_spec p).
Definition has_default (p : Param) : bool :=
  match default_value p with Some _ => true | None => false end.

(** A request is a dictionary: [method], [url], [params], [headers] and
    whatever marshalling adds. *)
Abbreviation Request := (gmap string Value).

(** The transport's response object: status code, body text, the parsed
    JSON accessor (which may raise) and its string form. *)
Record Response : Type := mkResponse {
  status_code : Z;
  text : string;
  json : outcome string Json;
  response_str : string
}.

(** ** The Operation object and the effects of its methods *)

(** The address of a dictionary object in the store. *)
Abbreviation addr := nat.

(** The instance attributes of [Operation.__init__]; [params] is the
    address of the dictionary (param name to Param). *)
Record Operation : Type := mkOperation {
  swagger_spec : Spec;
  path_name : string;
  http_method : string;
  op_spec : OpSpec;
  _operation_id : option string;
  params : addr
}.

Definition set__operation_id (v : option string) (op : Operation) : Operation :=
  mkOperation (swagger_spec op) (path_name op) (http_method op) (op_spec op)
              v (params op).

Definition set_params (v : addr) (op : Operation) : Operation :=
  mkOperation (swagger_spec op) (path_name op) (http_method op) (op_spec op)
              (_operation_id op) v.

(** What the module writes to its logger. *)
Inductive LogRecord : Type :=
  | Debug_call (operation_id : string) (kwargs : gmap string Value)
  | Warn (msg : string)
  | Debug_response_dict (response_dict : Json)
  | Debug_response_spec (response_spec : option ResponseSpec)
  | Debug_swagger_type (swagger_type_ : option string).

(** The state a method runs in: the object [self], the store of Param
    dictionaries, the log written so far, and the requests that were
    handed to the transport. *)
Record State : Type := mkState {
  self : Operation;
  heap : gmap addr (gmap string Param);
  log : list LogRecord;
  transport : list (HttpClient * Request)
}.

(** The dictionary at an address. *)
Definition deref (st : State) (a : addr) : gmap string Param :=
  default ∅ (heap st !! a).

(** The table [self.params] as it is in a state. *)
Definition self_params (st : State) : gmap string Param :=
  deref st (params (self st)).

Definition M (A : Type) : Type := State → Result A * State.

Definition ret {A} (a : A) : M A := λ st, (Ok a, st).

Definition bind {A B} (m : M A) (k : A → M B) : M B :=
  λ st, match m st with
        | (Ok a, st') => k a st'
        | (Raise e, st') => (Raise e, st')
        end.

Notation "x <- m ;; k" := (bind m (λ x, k))
  (at level 100, m at next level, right associativity).
Notation "m ;;; k" := (bind m (λ _, k))
  (at level 100, right associativity).

Definition raise {A} (e : exn) : M A := λ st, (Raise e, st).

Definition get_self : M Operation := λ st, (Ok (self st), st).

Definition modify_self (f : Operation → Operation) : M unit :=
  λ st, (Ok tt, mkState (f (self st)) (heap st) (log st) (transport st)).

Definition write_log (r : LogRecord) : M unit :=
  λ st, (Ok tt, mkState (self st) (heap st) (log st ++ [r]) (transport st)).

Definition hand_to_transport (c : HttpClient) (request : Request) : M unit :=
  λ st, (Ok tt, mkState (self st) (heap st) (log st)
                        (transport st ++ [(c, request)])).

(** A call of a collaborator: its exception, if any, propagates. *)
Definition calling {A} (callee : Callee) (r : outcome string A) : M A :=
  match r with
  | Ok a => ret a
  | Raise msg => raise (Propagated callee msg)
  end.

(** [d[key]] on a dictionary of the schema document. *)
Definition subscript {V} (d : gmap string V) (key : string) : M V :=
  match d !! key with
  | Some v => ret v
  | None => raise (KeyError key)
  end.

(** *** Dictionary objects *)

(** A new dictionary object with the given content, at an address that
    no live dictionary has. *)
Definition new_dict (d : gmap string Param) : M addr :=
  λ st, let a := fresh (dom (heap st) ∪ {[params (self st)]}) in
        (Ok a, mkState (self st) (<[a := d]> (heap st)) (log st) (transport st)).

(** [d.copy()] *)
Definition dict_copy (a : addr) : M addr :=
  λ st, new_dict (deref st a) st.

(** [d[key] = value] *)
Definition dict_setitem (a : addr) (key : string) (value : Param) : M unit :=
  λ st, (Ok tt, mkState (self st) (<[a := <[key := value]> (deref st a)]> (heap st))
                        (log st) (transport st)).

(** [d.pop(key, None)] *)
Definition dict_pop (a : addr) (key : string) : M (option Param) :=
  λ st, (Ok (deref st a !! key),
         mkState (self st) (<[a := delete key (deref st a)]> (heap st))
                 (log st) (transport st)).

(** ** Strings: [str.replace] and [str.strip] *)

Fixpoint drop_chars (n : nat) (s : string) : string :=
  match n, s with
  | O, _ => s
  | S n', String _ s' => drop_chars n' s'
  | S _, EmptyString => EmptyString
  end.

Fixpoint replace_from (fuel : nat) (old new s : string) : string :=
  match fuel with
  | O => s
  | S fuel' =>
      if String.prefix old s
      then new +:+ replace_from fuel' old new (drop_chars (String.length old) s)
      else match s with
           | EmptyString => EmptyString
           | String c s' => String c (replace_from fuel' old new s')
           end
  end.

(** [s.replace(old, new)] for a non-empty [old]: the occurrences are
    replaced from left to right without overlap. *)
Definition replace (old new s : string) : string :=
  replace_from (S (String.length s)) old new s.

Fixpoint char_in (c : Ascii.ascii) (chars : string) : bool :=
  match chars with
  | EmptyString => false
  | String x chars' => Ascii.eqb x c || char_in c chars'
  end.

Fixpoint lstrip (chars s : string) : string :=
  match s with
  | String x s' => if char_in x chars then lstrip chars s' else s
  | EmptyString => EmptyString
  end.

(** [s.strip(chars)]: leading and trailing characters that occur in
    [chars] are removed. *)
Definition strip (chars s : string) : string :=
  String.rev (lstrip chars (String.rev (lstrip chars s))).

(** ** Iterating over a dictionary *)

(** An iteration order for dictionaries: [items m] lists the entries of
    [m], each once, in some order.  Python 2 promises no more. *)
Record DictOrder : Type := mkDictOrder {
  items : ∀ {V : Type}, gmap string V → list (string * V);
  items_perm : ∀ (V : Type) (m : gmap string V), items m ≡ₚ map_to_list m
}.

(** [itervalues] follows the same order as [iteritems]. *)
Definition values (order : DictOrder) {V} (m : gmap string V) : list V :=
  (items order m).*2.

Definition gmap_order : DictOrder :=
  mkDictOrder (λ V m, map_to_list m) (λ V m, reflexivity _).

(** [d.itervalues()] on a dictionary object, read when the loop starts. *)
Definition dict_itervalues (order : DictOrder) (a : addr) : M (list Param) :=
  λ st, (Ok (values order (deref st a)), st).

(** ** class Operation *)

(** Modelled from the spec: [HTTPFuture] of [bravado.response], which is
    not among the sources.  The future holds the client, the request and
    the callback that handles the response. *)
Record HTTPFuture : Type := mkHTTPFuture {
  future_http_client : HttpClient;
  future_request : Request;
  response_callback : Response → gmap string Value → M Value
}.

Section Operation.

Context (order : DictOrder).

(** The collaborators, none of them among the sources: the encoder of
    [bravado.mapping.param] that renders a value for the param's
    location and merges it into the request, [get_swagger_type] of
    [bravado.swagger_type], and [post_receive] of [bravado.response].
    Each may raise. *)
Context (encode_param : Param → Value → Request → outcome string Request).
Context (get_swagger_type : Defn → outcome string string).
Context (post_receive : Json → option string → gmap string Defn →
                        gmap string Value → outcome string Value).

(** Modelled from the spec: [marshal_param] of [bravado.mapping.param],
    which is not among the sources.  The value is encoded per the
    param's location and merged into the request; [None] in place of a
    value stands for the declared default, which is how
    [construct_params] asks for it. *)
Definition marshal_param (param : Param) (value : Value) (request : Request)
  : outcome string Request :=
  match value, default_value param with
  | VNone, Some dflt => encode_param param dflt request
  | _, _ => encode_param param value request
  end.

(** Modelled from the spec: building the future hands the request to
    the transport. *)
Definition new_HTTPFuture (c : HttpClient) (request : Request)
    (callback : Response → gmap string Value → M Value) : M HTTPFuture :=
  hand_to_transport c request ;;;
  ret (mkHTTPFuture c request callback).

(** Modelled from the spec: resolving the future applies the callback to
    the response the transport returned. *)
Definition result (f : HTTPFuture) (response : Response) : M Value :=
  response_callback f response ∅.

(** [Operation.build_params] *)
Fixpoint build_params_loop (param_specs : list ParamSpec) : M unit :=
  match param_specs with
  | [] => ret tt
  | param_spec :: rest =>
      self0 <- get_self ;;
      let param := mkParam (swagger_spec self0) param_spec in
      dict_setitem (params self0) (name param) param ;;;
      build_params_loop rest
  end.

Definition build_params : M unit :=
  fresh_params <- new_dict ∅ ;;
  modify_self (set_params fresh_params) ;;;
  self0 <- get_self ;;
  let op_param_specs := default [] (parameters (op_spec self0)) in
  path_specs <- subscript (paths (spec_dict (swagger_spec self0))) (path_name self0) ;;
  let path_param_specs := default [] (path_parameters path_specs) in
  let param_specs := op_param_specs ++ path_param_specs in
  build_params_loop param_specs.

(** [Operation.__init__]: the new object becomes [self]. *)
Definition init (swagger_spec0 : Spec) (path_name0 http_method0 : string)
    (op_spec0 : OpSpec) : M unit :=
  fresh_params <- new_dict ∅ ;;
  modify_self (λ _, mkOperation swagger_spec0 path_name0 http_method0 op_spec0
                                None fresh_params).

(** [Operation.from_spec]: the new object is [self] from here on, and
    is what the call returns. *)
Definition from_spec (swagger_spec0 : Spec) (path_name0 http_method0 : string)
    (op_spec0 : OpSpec) : M Operation :=
  init swagger_spec0 path_name0 http_method0 op_spec0 ;;;
  build_params ;;;
  get_self.

(** The property [Operation.operation_id]: computed on first use and
    kept in [_operation_id]. *)
Definition operation_id : M string :=
  self0 <- get_self ;;
  match _operation_id self0 with
  | Some i => ret i
  | None =>
      let i :=
        match operationId (op_spec self0) with
        | Some i => i
        | None =>
            strip "_"
              (replace "__" "_"
                (replace "}" "_"
                  (replace "{" "_"
                    (replace "/" "_"
                      (http_method self0 +:+ "_" +:+ path_name self0)))))
        end in
      modify_self (set__operation_id (Some i)) ;;;
      ret i
  end.

(** [Operation.construct_params], first loop: every supplied name pops
    its Param from [current_params] and is marshalled. *)
Fixpoint construct_params_supplied (op_kwargs : list (string * Value))
    (current_params : addr) (request : Request) : M Request :=
  match op_kwargs with
  | [] => ret request
  | (param_name, param_value) :: rest =>
      popped <- dict_pop current_params param_name ;;
      match popped with
      | None =>
          op_id <- operation_id ;;
          raise (TypeError (op_id +:+ " does not have parameter " +:+ param_name))
      | Some param =>
          request' <- calling In_marshal_param
                        (marshal_param param param_value request) ;;
          construct_params_supplied rest current_params request'
      end
  end.

(** [Operation.construct_params], second loop: the params that are
    left. *)
Fixpoint construct_params_remaining (remaining : list Param)
    (request : Request) : M Request :=
  match remaining with
  | [] => ret request
  | remaining_param :: rest =>
      if required remaining_param
      then raise (TypeError (name remaining_param +:+ " is a required parameter"))
      else if has_default remaining_param
      then request' <- calling In_marshal_param
                         (marshal_param remaining_param VNone request) ;;
           construct_params_remaining rest request'
      else construct_params_remaining rest request
  end.

(** [Operation.construct_params].  The request dictionary is updated in
    place by the source; here the updated request is returned. *)
Definition construct_params (request : Request) (op_kwargs : gmap string Value)
  : M Request :=
  self0 <- get_self ;;
  current_params <- dict_copy (params self0) ;;
  request' <- construct_params_supplied (items order op_kwargs)
                                        current_params request ;;
  remaining <- dict_itervalues order current_params ;;
  construct_params_remaining remaining request'.

(** The name under which the interpreter prints the type of a value,
    where the value fixes it: a file may be any file-like object, the
    class of a model is built outside [operation.py], and past 31 bits
    an integer is an [int] or a [long] by the platform. *)
Definition type_name_of (v : Value) : option string :=
  match v with
  | VNone => Some "NoneType"
  | VBool _ => Some "bool"
  | VInt z => if bool_decide (- 2 ^ 31 <= z < 2 ^ 31) then Some "int" else None
  | VFloat _ => Some "float"
  | VStr _ => Some "str"
  | VDate _ _ _ => Some "datetime.date"
  | VDateTime _ _ _ _ _ _ => Some "datetime.datetime"
  | VFile _ => None
  | VList _ => Some "list"
  | VDict _ => Some "dict"
  | VModel _ _ => None
  end.

(** The message of the [AttributeError] of [obj.attr]. *)
Definition attribute_error_message (obj : Value) (attr : string) : option string :=
  match type_name_of obj with
  | Some type_name => Some ("'" +:+ type_name +:+ "' object has no attribute '"
                            +:+ attr +:+ "'")
  | None => None
  end.

(** [d.get(key, dflt)] on a Python value: only a dictionary has it. *)
Definition value_get (d : Value) (key : string) (dflt : Value) : M Value :=
  match d with
  | VDict m => ret (default dflt (m !! key))
  | _ => raise (AttributeError d "get")
  end.

(** [Operation.construct_request] *)
Definition construct_request (kwargs : gmap string Value) : M Request :=
  let request_options := default (VDict ∅) (kwargs !! "_request_options") in
  let kwargs := delete "_request_options" kwargs in
  self0 <- get_self ;;
  headers <- value_get request_options "headers" (VDict ∅) ;;
  let request : Request :=
    <["method" := VStr (http_method self0)]>
    (<["url" := VStr (api_url (swagger_spec self0) +:+ path_name self0)]>
    (<["params" := VDict ∅]>
    (<["headers" := headers]> ∅))) in
  construct_params request kwargs.

(** The second half of [response_future]: the body is parsed, the
    result type is read off the selected response spec (none when there
    is no spec or the spec has no [schema]) and [post_receive] builds
    the result. *)
Definition receive (response_spec : option ResponseSpec) (response : Response)
    (kwargs : gmap string Value) : M Value :=
  response_dict <- calling In_response_json (json response) ;;
  swagger_type_ <-
    match response_spec with
    | Some (mkResponseSpec (Some schema)) =>
        t <- calling In_get_swagger_type (get_swagger_type schema) ;;
        ret (Some t)
    | _ => ret None
    end ;;
  write_log (Debug_response_dict response_dict) ;;;
  write_log (Debug_response_spec response_spec) ;;;
  write_log (Debug_swagger_type swagger_type_) ;;;
  self1 <- get_self ;;
  calling In_post_receive
    (post_receive response_dict swagger_type_
                  (definitions (swagger_spec self1)) kwargs).

(** The closure [response_future] of [Operation.__call__]: it runs when
    the future is resolved, on the object as it is then. *)
Definition response_future (response : Response) (kwargs : gmap string Value)
  : M Value :=
  if bool_decide (text response = "") then ret VNone else
  let status_code := pretty (status_code response) in
  self0 <- get_self ;;
  responses0 <- match responses (op_spec self0) with
                | Some t => ret t
                | None => raise (KeyError "responses")
                end ;;
  let default_response_spec := responses0 !! "default" in
  let response_spec :=
    match responses0 !! status_code with
    | Some rs => Some rs
    | None => default_response_spec
    end in
  match response_spec with
  | None =>
      if bool_decide (status_code = "200")
      then op_id <- operation_id ;;
           write_log (Warn ("Op " +:+ op_id +:+
                            " was successful by didn't match any responses"))
      else raise (SwaggerError
                    ("Response doesn't match any expected responses: " +:+
                     response_str response))
  | Some _ => ret tt
  end ;;;
  receive response_spec response kwargs.

(** [Operation.__call__] *)
Definition __call__ (kwargs : gmap string Value) : M HTTPFuture :=
  op_id <- operation_id ;;
  write_log (Debug_call op_id kwargs) ;;;
  request <- construct_request kwargs ;;
  self0 <- get_self ;;
  new_HTTPFuture (http_client (swagger_spec self0)) request response_future.

End Operation.

(** ** The loops of [construct_params] as functions of the table

    The same two loops, read as functions of the content of the copied
    table: what they return and what is left in the table, apart from the
    state they run in. *)

Inductive supplied_error : Type :=
  | Unknown_param (param_name : string)
  | Supplied_failed (msg : string).

Inductive remaining_error : Type :=
  | Required_missing (p : Param)
  | Default_failed (msg : string).

Section Passes.

Context (encode_param : Param → Value → Request → outcome string Request).

Fixpoint supplied_pass (op_kwargs : list (string * Value))
    (table : gmap string Param) (request : Request)
  : outcome supplied_error (gmap string Param * Request) :=
  match op_kwargs with
  | [] => Ok (table, request)
  | (param_name, param_value) :: rest =>
      match table !! param_name with
      | None => Raise (Unknown_param param_name)
      | Some param =>
          match marshal_param encode_param param param_value request with
          | Ok request' => supplied_pass rest (delete param_name table) request'
          | Raise msg => Raise (Supplied_failed msg)
          end
      end
  end.

Fixpoint remaining_pass (remaining : list Param) (request : Request)
  : outcome remaining_error Request :=
  match remaining with
  | [] => Ok request
  | p :: rest =>
      if required p then Raise (Required_missing p)
      else match default_value p with
           | Some dflt =>
               match encode_param p dflt request with
               | Ok request' => remaining_pass rest request'
               | Raise msg => Raise (Default_failed msg)
               end
           | None => remaining_pass rest request
           end
  end.

(** The exception each failure stands for. *)
Definition supplied_exn (op_id : string) (e : supplied_error) : exn :=
  match e with
  | Unknown_param param_name =>
      TypeError (op_id +:+ " does not have parameter " +:+ param_name)
  | Supplied_failed msg => Propagated In_marshal_param msg
  end.

Definition remaining_exn (e : remaining_error) : exn :=
  match e with
  | Required_missing p => TypeError (name p +:+ " is a required parameter")
  | Default_failed msg => Propagated In_marshal_param msg
  end.

End Passes.

(** The value of the property [operation_id] on an object. *)
Definition operation_id_of (op : Operation) : string :=
  match _operation_id op with
  | Some i => i
  | None =>
      match operationId (op_spec op) with
      | Some i => i
      | None =>
          strip "_"
            (replace "__" "_"
              (replace "}" "_"
                (replace "{" "_"
                  (replace "/" "_"
                    (http_method op +:+ "_" +:+ path_name op)))))
      end
  end.

(** The request [construct_request] starts from. *)
Definition fresh_request (op : Operation) (headers : Value) : Request :=
  <["method" := VStr (http_method op)]>
  (<["url" := VStr (api_url (swagger_spec op) +:+ path_name op)]>
  (<["params" := VDict ∅]>
  (<["headers" := headers]> ∅))).

(** [sub in s] on strings. *)
Fixpoint contains (sub s : string) : bool :=
  String.prefix sub s ||
  match s with
  | EmptyString => false
  | String _ s' => contains sub s'
  end.

(** ** How a method may change the state *)

(** An object changes at most by having its operation id computed. *)
Definition id_cached (op op' : Operation) : Prop :=
  op' = op ∨ op' = set__operation_id (Some (operation_id_of op)) op.

(** [frame a st st']: from [st] to [st'] the object changed at most by
    caching its id, the store changed at most at the address [a] and at
    addresses that were free, and nothing was handed to the transport. *)
Record frame (a : addr) (st st' : State) : Prop := mkFrame {
  frame_self : id_cached (self st) (self st');
  frame_heap : ∀ b, b ≠ a → b ∈ dom (heap st) ∪ {[params (self st)]} →
                    deref st' b = deref st b;
  frame_dom : dom (heap st) ⊆ dom (heap st');
  frame_transport : transport st' = transport st
}.

(** A failure of a pass as the exception it stands for. *)
Definition to_result {E A} (f : E → exn) (o : outcome E A) : Result A :=
  match o with
  | Ok a => Ok a
  | Raise e => Raise (f e)
  end.

(** ** [construct_params] as a function of the table *)

Definition outcome_map {E A B} (f : A → B) (o : outcome E A) : outcome E B :=
  match o with Ok a => Ok (f a) | Raise e => Raise e end.

Definition construct_params_outcome (order : DictOrder)
    (encode_param : Param → Value → Request → outcome string Request)
    (op_id : string) (table : gmap string Param)
    (request : Request) (op_kwargs : gmap string Value) : Result Request :=
  match supplied_pass encode_param (items order op_kwargs) table request with
  | Raise e => Raise (supplied_exn op_id e)
  | Ok (table', request') =>
      to_result remaining_exn
        (remaining_pass encode_param (values order table') request')
  end.

(** From [st] to [st'] the object is the same up to its cached id and
    its table of params has the same content. *)
Definition params_kept (st st' : State) : Prop :=
  id_cached (self st) (self st') ∧ self_params st' = self_params st.

(** [construct_request] as a function of the object and its table. *)
Definition construct_request_outcome (order : DictOrder)
    (encode_param : Param → Value → Request → outcome string Request)
    (op : Operation) (table : gmap string Param)
    (kwargs : gmap string Value) : Result Request :=
  match default (VDict ∅) (kwargs !! "_request_options") with
  | VDict options =>
      construct_params_outcome order encode_param (operation_id_of op) table
        (fresh_request op (default (VDict ∅) (options !! "headers")))
        (delete "_request_options" kwargs)
  | request_options => Raise (AttributeError request_options "get")
  end.

(** The state in which [__call__] constructs the request: the id is
    cached and the call is logged. *)
Definition call_entry (kwargs : gmap string Value) (st : State) : State :=
  mkState (set__operation_id (Some (operation_id_of (self st))) (self st))
          (heap st)
          (log st ++ [Debug_call (operation_id_of (self st)) kwargs])
          (transport st).

(** The state after the warning of the implicit-200 case. *)
Definition warned (st : State) : State :=
  mkState (set__operation_id (Some (operation_id_of (self st))) (self st))
          (heap st)
          (log st ++ [Warn ("Op " +:+ operation_id_of (self st) +:+
                            " was successful by didn't match any responses")])
          (transport st).

(** The table that the loop of [build_params] leaves: every declaration
    is entered under its name, a later one replacing an earlier one. *)
Definition declared_table (sp : Spec) (param_specs : list ParamSpec)
    (table : gmap string Param) : gmap string Param :=
  foldl (λ m param_spec, <[ps_name param_spec := mkParam sp param_spec]> m)
        table param_specs.

(** ** The marshaller *)

(** Modelled from the spec: the errors of marshalling.  [SchemaError] is
    the spec's fatal error; [Out_of_fuel] belongs to the embedding: the
    recursion below is bounded by a fuel, and this is what it returns when
    the fuel does not suffice. *)
Inductive marshal_error : Type :=
  | SchemaError (msg : string)
  | Out_of_fuel.

Definition outcome_bind {E A B} (o : outcome E A) (k : A → outcome E B)
  : outcome E B :=
  match o with
  | Ok a => k a
  | Raise e => Raise e
  end.

(** Element-wise application, in order; the first failure is the result. *)
Fixpoint map_outcome {E A B} (f : A → outcome E B) (l : list A)
  : outcome E (list B) :=
  match l with
  | [] => Ok []
  | x :: rest =>
      outcome_bind (f x) (λ y,
      outcome_bind (map_outcome f rest) (λ ys, Ok (y :: ys)))
  end.

(** *** ISO-8601 dates *)

(** The decimal digit of [n], for [n] from 0 to 9, and back. *)
Definition digit_char (n : Z) : Ascii.ascii :=
  Ascii.ascii_of_nat (Z.to_nat (48 + n)).

Definition char_digit (c : Ascii.ascii) : option Z :=
  let n := Z.of_nat (Ascii.nat_of_ascii c) - 48 in
  if (0 <=? n) && (n <=? 9) then Some n else None.

Definition pad2 (n : Z) (rest : string) : string :=
  String (digit_char (n / 10)) (String (digit_char (n mod 10)) rest).

Definition pad4 (n : Z) (rest : string) : string :=
  String (digit_char (n / 1000))
    (String (digit_char (n / 100 mod 10)) (pad2 (n mod 100) rest)).

Definition is_leap (y : Z) : bool :=
  ((y mod 4 =? 0) && negb (y mod 100 =? 0)) || (y mod 400 =? 0).

Definition days_in_month (y m : Z) : Z :=
  match m with
  | 2 => if is_leap y then 29 else 28
  | 4 | 6 | 9 | 11 => 30
  | _ => 31
  end.

(** The dates a calendar date can hold: years 1 to 9999. *)
Definition valid_date (y m d : Z) : bool :=
  (1 <=? y) && (y <=? 9999) && (1 <=? m) && (m <=? 12) &&
  (1 <=? d) && (d <=? days_in_month y m).

(** [YYYY-MM-DD] *)
Definition isoformat (y m d : Z) : string :=
  pad4 y (String "-" (pad2 m (String "-" (pad2 d "")))).

Definition digits2 (a b : Ascii.ascii) : option Z :=
  match char_digit a, char_digit b with
  | Some x, Some y => Some (10 * x + y)
  | _, _ => None
  end.

Definition parse_date (s : string) : option (Z * Z * Z) :=
  match s with
  | String y1 (String y2 (String y3 (String y4 (String "-"
    (String m1 (String m2 (String "-" (String d1 (String d2 EmptyString))))))))) =>
      match digits2 y1 y2, digits2 y3 y4, digits2 m1 m2, digits2 d1 d2 with
      | Some yh, Some yl, Some m, Some d =>
          if valid_date (100 * yh + yl) m d then Some (100 * yh + yl, m, d) else None
      | _, _, _, _ => None
      end
  | _ => None
  end.

(** The times of day, to the second. *)
Definition valid_time (h mi s : Z) : bool :=
  (0 <=? h) && (h <=? 23) && (0 <=? mi) && (mi <=? 59) && (0 <=? s) && (s <=? 59).

(** [YYYY-MM-DDTHH:MM:SS] *)
Definition isoformat_datetime (y m d h mi s : Z) : string :=
  pad4 y (String "-" (pad2 m (String "-" (pad2 d
    (String "T" (pad2 h (String ":" (pad2 mi (String ":" (pad2 s "")))))))))).

Definition parse_datetime (s : string) : option (Z * Z * Z * Z * Z * Z) :=
  match s with
  | String y1 (String y2 (String y3 (String y4 (String "-"
    (String m1 (String m2 (String "-" (String d1 (String d2 (String "T"
    (String h1 (String h2 (String ":" (String i1 (String i2 (String ":"
    (String s1 (String s2 EmptyString)))))))))))))))))) =>
      match digits2 y1 y2, digits2 y3 y4, digits2 m1 m2, digits2 d1 d2,
            digits2 h1 h2, digits2 i1 i2, digits2 s1 s2 with
      | Some yh, Some yl, Some m, Some d, Some h, Some mi, Some sec =>
          if valid_date (100 * yh + yl) m d && valid_time h mi sec
          then Some (100 * yh + yl, m, d, h, mi, sec) else None
      | _, _, _, _, _, _, _ => None
      end
  | _ => None
  end.

(** *** Primitives *)

Definition is_format (format : option string) (f : string) : bool :=
  bool_decide (format = Some f).

(** Modelled from the spec: encoding of a primitive.  Dates and
    timestamps are rendered as ISO-8601 strings, every other primitive
    goes out as it is. *)
Definition marshal_primitive (ty : PrimType) (format : option string) (v : Value)
  : outcome marshal_error Json :=
  match ty, v with
  | TString, VDate y m d =>
      if is_format format "date" then Ok (JStr (isoformat y m d))
      else Raise (SchemaError "a date where a string is expected")
  | TString, VDateTime y m d h mi s =>
      if is_format format "date-time"
      then Ok (JStr (isoformat_datetime y m d h mi s))
      else Raise (SchemaError "a timestamp where a string is expected")
  | TString, VStr s =>
      if is_format format "date" || is_format format "date-time"
      then Raise (SchemaError "a string where a date is expected")
      else Ok (JStr s)
  | TInteger, VInt z => Ok (JInt z)
  | TNumber, VFloat bits => Ok (JFloat bits)
  | TNumber, VInt z => Ok (JInt z)
  | TBoolean, VBool b => Ok (JBool b)
  | TFile, VFile content => Ok (JRaw content)
  | _, _ => Raise (SchemaError "value does not match the primitive type")
  end.

(** Modelled from the spec: decoding of a primitive, the inverse. *)
Definition unmarshal_primitive (ty : PrimType) (format : option string) (w : Json)
  : outcome marshal_error Value :=
  match ty, w with
  | TString, JStr s =>
      if is_format format "date" then
        match parse_date s with
        | Some (y, m, d) => Ok (VDate y m d)
        | None => Raise (SchemaError "not an ISO-8601 date")
        end
      else if is_format format "date-time" then
        match parse_datetime s with
        | Some (y, m, d, h, mi, sec) => Ok (VDateTime y m d h mi sec)
        | None => Raise (SchemaError "not an ISO-8601 timestamp")
        end
      else Ok (VStr s)
  | TInteger, JInt z => Ok (VInt z)
  | TNumber, JFloat bits => Ok (VFloat bits)
  | TNumber, JInt z => Ok (VInt z)
  | TBoolean, JBool b => Ok (VBool b)
  | TFile, JRaw content => Ok (VFile content)
  | _, _ => Raise (SchemaError "wire value does not match the primitive type")
  end.

(** The values of a primitive type: text; calendar dates and timestamps
    for the two formats; integers of 64 bits, of 32 for [int32]; the
    finite binary64 numbers, and the integers, for [number]; booleans; byte
    streams.  The [enum] of the type is not looked at: a value that also
    meets it is valid in this sense. *)
Definition valid_primitive (ty : PrimType) (format : option string) (v : Value)
  : bool :=
  match ty, v with
  | TString, VDate y m d => is_format format "date" && valid_date y m d
  | TString, VDateTime y m d h mi s =>
      is_format format "date-time" && valid_date y m d && valid_time h mi s
  | TString, VStr _ =>
      negb (is_format format "date" || is_format format "date-time")
  | TInteger, VInt z =>
      if is_format format "int32"
      then (- 2 ^ 31 <=? z) && (z <? 2 ^ 31)
      else (- 2 ^ 63 <=? z) && (z <? 2 ^ 63)
  | TNumber, VFloat bits =>
      (0 <=? bits) && (bits <? 2 ^ 64) &&
      negb (Z.land (Z.shiftr bits 52) 2047 =? 2047)
  | TNumber, VInt _ => true
  | TBoolean, VBool _ => true
  | TFile, VFile _ => true
  | _, _ => false
  end.

(** *** Objects *)

(** The keyed bag of a model instance or of a dictionary. *)
Definition fields_of (v : Value) : option (gmap string Value) :=
  match v with
  | VModel _ fields => Some fields
  | VDict fields => Some fields
  | _ => None
  end.

(** Modelled from the spec: every declared property is read off the
    instance and encoded by its own Definition; a property that is absent
    is left out, unless it is required, which is an error. *)
Fixpoint marshal_properties (rec : Defn → Value → outcome marshal_error Json)
    (properties : list (string * Defn)) (required : list string)
    (fields : gmap string Value) : outcome marshal_error (gmap string Json) :=
  match properties with
  | [] => Ok ∅
  | (prop, d) :: rest =>
      match fields !! prop with
      | Some v =>
          outcome_bind (rec d v) (λ w,
          outcome_bind (marshal_properties rec rest required fields) (λ m,
          Ok (<[prop := w]> m)))
      | None =>
          if bool_decide (prop ∈ required)
          then Raise (SchemaError ("required property is absent: " +:+ prop))
          else marshal_properties rec rest required fields
      end
  end.

(** Modelled from the spec: every property present on the wire is
    decoded by its own Definition; an absent optional property stays
    unset. *)
Fixpoint unmarshal_properties (rec : Defn → Json → outcome marshal_error Value)
    (properties : list (string * Defn)) (required : list string)
    (wire : gmap string Json) : outcome marshal_error (gmap string Value) :=
  match properties with
  | [] => Ok ∅
  | (prop, d) :: rest =>
      match wire !! prop with
      | Some w =>
          outcome_bind (rec d w) (λ v,
          outcome_bind (unmarshal_properties rec rest required wire) (λ m,
          Ok (<[prop := v]> m)))
      | None =>
          if bool_decide (prop ∈ required)
          then Raise (SchemaError ("required property is absent: " +:+ prop))
          else unmarshal_properties rec rest required wire
      end
  end.

Definition valid_properties (rec : Defn → Value → bool)
    (properties : list (string * Defn)) (required : list string)
    (fields : gmap string Value) : bool :=
  bool_decide (NoDup properties.*1) &&
  bool_decide (dom fields ⊆ list_to_set properties.*1) &&
  forallb (λ pd, match fields !! pd.1 with
                 | Some v => rec pd.2 v
                 | None => negb (bool_decide (pd.1 ∈ required))
                 end) properties.

(** *** Encode and decode *)

(** Modelled from the spec: Encode.  The recursion follows the data; a
    reference is resolved by name in the table of definitions. *)
Fixpoint marshal (fuel : nat) (defs : gmap string Defn) (d : Defn) (v : Value)
  : outcome marshal_error Json :=
  match fuel with
  | O => Raise Out_of_fuel
  | S fuel' =>
      match d with
      | DPrimitive ty format _ => marshal_primitive ty format v
      | DArray items =>
          match v with
          | VList l => outcome_map JArr (map_outcome (marshal fuel' defs items) l)
          | _ => Raise (SchemaError "value is not an array")
          end
      | DObject _ properties required =>
          match fields_of v with
          | Some fields =>
              outcome_map JObj
                (marshal_properties (marshal fuel' defs) properties required fields)
          | None => Raise (SchemaError "value is not an object")
          end
      | DReference target =>
          match defs !! target with
          | Some d' => marshal fuel' defs d' v
          | None => Raise (SchemaError ("unresolved reference: " +:+ target))
          end
      end
  end.

(** Modelled from the spec: Decode, the mirror image.  A named object
    yields an instance of its record type, an object without a name
    yields a dictionary. *)
Fixpoint unmarshal (fuel : nat) (defs : gmap string Defn) (d : Defn) (w : Json)
  : outcome marshal_error Value :=
  match fuel with
  | O => Raise Out_of_fuel
  | S fuel' =>
      match d with
      | DPrimitive ty format _ => unmarshal_primitive ty format w
      | DArray items =>
          match w with
          | JArr l => outcome_map VList (map_outcome (unmarshal fuel' defs items) l)
          | _ => Raise (SchemaError "wire value is not an array")
          end
      | DObject name properties required =>
          match w with
          | JObj wire =>
              outcome_map
                (match name with
                 | Some n => VModel n
                 | None => VDict
                 end)
                (unmarshal_properties (unmarshal fuel' defs) properties required wire)
          | _ => Raise (SchemaError "wire value is not an object")
          end
      | DReference target =>
          match defs !! target with
          | Some d' => unmarshal fuel' defs d' w
          | None => Raise (SchemaError ("unresolved reference: " +:+ target))
          end
      end
  end.

(** [v] is a valid instance of [d], checked along the data with the same
    fuel. *)
Fixpoint valid (fuel : nat) (defs : gmap string Defn) (d : Defn) (v : Value) : bool :=
  match fuel with
  | O => false
  | S fuel' =>
      match d with
      | DPrimitive ty format _ => valid_primitive ty format v
      | DArray items =>
          match v with
          | VList l => forallb (valid fuel' defs items) l
          | _ => false
          end
      | DObject name properties required =>
          match name, v with
          | Some n, VModel n' fields =>
              bool_decide (n = n') &&
              valid_properties (valid fuel' defs) properties required fields
          | None, VDict fields =>
              valid_properties (valid fuel' defs) properties required fields
          | _, _ => false
          end
      | DReference target =>
          match defs !! target with
          | Some d' => valid fuel' defs d' v
          | None => false
          end
      end
  end.

(** [marshal_array] of [bravado.mapping.marshal], as the tests call it. *)
Definition marshal_array (fuel : nat) (swagger_spec : Spec) (array_spec : Defn)
    (array_value : list Value) : outcome marshal_error Json :=
  marshal fuel (definitions swagger_spec) array_spec (VList array_value).

(** ** Examples: pet endpoints in the manner of the client tests *)

Definition string_schema : Defn := DPrimitive TString None [].
Definition integer_schema : Defn := DPrimitive TInteger None [].
Definition date_schema : Defn := DPrimitive TString (Some "date") [].

Definition name_decl : ParamSpec :=
  mkParamSpec "name" InQuery true None string_schema None.
Definition birthday_decl : ParamSpec :=
  mkParamSpec "birthday" InQuery false None date_schema None.
Definition limit_decl : ParamSpec :=
  mkParamSpec "limit" InQuery false (Some (VInt 10)) integer_schema None.
Definition petId_path_decl : ParamSpec :=
  mkParamSpec "petId" InPath true None integer_schema None.
Definition petId_query_decl : ParamSpec :=
  mkParamSpec "petId" InQuery false None string_schema None.

Definition pet_paths : gmap string PathSpec :=
  <["/pet" := mkPathSpec None]>
  (<["/pet/find" := mkPathSpec None]>
  (<["/pet/{petId}" := mkPathSpec (Some [petId_path_decl])]> ∅)).

Definition pet_spec : Spec :=
  mkSpec (mkSpecDict pet_paths) "http://swagger.py/swagger-test" ∅ (mkHttpClient 0).

Definition createPet_spec : OpSpec :=
  mkOpSpec (Some "createPet") (Some [name_decl; birthday_decl])
           (Some {["200" := mkResponseSpec (Some string_schema)]}).
Definition findPets_spec : OpSpec :=
  mkOpSpec (Some "findPets") (Some [limit_decl])
           (Some {["default" := mkResponseSpec None]}).
Definition deletePet_spec : OpSpec :=
  mkOpSpec (Some "deletePet") None (Some ∅).
Definition getPet_spec : OpSpec :=
  mkOpSpec None (Some [petId_query_decl]) (Some ∅).

(** A state to build operations in. *)
Definition blank_state : State :=
  mkState (mkOperation pet_spec "" "" (mkOpSpec None None None) None 0) ∅ [] [].

Definition createPet_state : State :=
  (from_spec pet_spec "/pet" "POST" createPet_spec blank_state).2.
Definition findPets_state : State :=
  (from_spec pet_spec "/pet/find" "GET" findPets_spec blank_state).2.
Definition deletePet_state : State :=
  (from_spec pet_spec "/pet/{petId}" "DELETE" deletePet_spec blank_state).2.
Definition getPet_state : State :=
  (from_spec pet_spec "/pet/{petId}" "GET" getPet_spec blank_state).2.

(** An encoder for the examples: every value is filed under the
    request's [params] by the name of its param. *)
Definition encode_as_query (p : Param) (v : Value) (request : Request)
  : outcome string Request :=
  match request !! "params" with
  | Some (VDict d) => Ok (<["params" := VDict (<[name p := v]> d)]> request)
  | _ => Raise "request has no params"
  end.


Definition swagger_type_name (d : Defn) : outcome string string :=
  match d with
  | DPrimitive TString _ _ => Ok "string"
  | DPrimitive TInteger _ _ => Ok "integer"
  | DPrimitive TNumber _ _ => Ok "number"
  | DPrimitive TBoolean _ _ => Ok "boolean"
  | DPrimitive TFile _ _ => Ok "file"
  | DArray _ => Ok "array"
  | DObject (Some n) _ _ => Ok n
  | DObject None _ _ => Ok "object"
  | DReference n => Ok n
  end.

(** A [post_receive] for the examples: scalars come back as they are. *)
Definition post_receive_scalar (response_dict : Json) (swagger_type_ : option string)
    (defs : gmap string Defn) (kwargs : gmap string Value) : outcome string Value :=
  match response_dict with
  | JNull => Ok VNone
  | JBool b => Ok (VBool b)
  | JInt z => Ok (VInt z)
  | JFloat bits => Ok (VFloat bits)
  | JStr s => Ok (VStr s)
  | _ => Raise "structured results are not decoded in the examples"
  end.

(** Responses of the transport. *)
Definition spark_response : Response :=
  mkResponse 200 (String "034" ("Spark is born" +:+ String "034" ""))
             (Ok (JStr "Spark is born")) "<Response [200]>".
Definition not_found_response : Response :=
  mkResponse 404 "{}" (Ok (JObj ∅)) "<Response [404]>".
Definition ok_response : Response :=
  mkResponse 200 "true" (Ok (JBool true)) "<Response [200]>".
Definition server_error_response : Response :=
  mkResponse 500 "{}" (Ok (JObj ∅)) "<Response [500]>".
Definition no_content_response : Response :=
  mkResponse 204 "" (Raise "No JSON object could be decoded") "<Response [204]>".

(** ** Examples: the arrays of the marshalling tests and a tree of nodes *)

Definition empty_swagger_spec : Spec := mkSpec (mkSpecDict ∅) "" ∅ (mkHttpClient 0).
Definition int_array_spec : Defn := DArray (DPrimitive TInteger None []).
Definition array_of_array_spec : Defn := DArray (DArray (DPrimitive TString None [])).
Definition array_of_addresses_spec : Defn :=
  DArray (DObject None
            [("number", DPrimitive TNumber None []);
             ("street_name", DPrimitive TString None []);
             ("street_type", DPrimitive TString None
                               [JStr "Street"; JStr "Avenue"; JStr "Boulevard"])]
            []).
Definition address (number : Z) (street_name street_type : string) : Value :=
  VDict (<["number" := VInt number]>
        (<["street_name" := VStr street_name]>
        (<["street_type" := VStr street_type]> ∅))).
Definition wire_address (number : Z) (street_name street_type : string) : Json :=
  JObj (<["number" := JInt number]>
       (<["street_name" := JStr street_name]>
       (<["street_type" := JStr street_type]> ∅))).

Definition node_defs : gmap string Defn :=
  {["Node" := DObject (Some "Node")
                [("value", DPrimitive TInteger None []);
                 ("born", DPrimitive TString (Some "date") []);
                 ("children", DArray (DReference "Node"))]
                ["value"]]}.
Definition leaf (n : Z) : Value :=
  VModel "Node" (<["value" := VInt n]> (<["children" := VList []]> ∅)).
Definition tree : Value :=
  VModel "Node" (<["value" := VInt 1]>
                (<["born" := VDate 2014 1 2]>
                (<["children" := VList [leaf 2; leaf 3]]> ∅))).

(** The last character of a string. *)
Fixpoint last_char (s : string) : option Ascii.ascii :=
  match s with
  | EmptyString => None
  | String c s' =>
      match s' with
      | EmptyString => Some c
      | String _ _ => last_char s'
      end
  end.

(** The first character of a string. *)
Definition first_char (s : string) : option Ascii.ascii :=
  match s with
  | EmptyString => None
  | String c _ => Some c
  end.

(** [Operation.__repr__]: the class name and the operation id. *)
Definition __repr__ : M string :=
  op_id <- operation_id ;;
  ret ("Operation(" +:+ op_id +:+ ")").

(** The state in which the loop of [build_params] starts: the object
    holds a new, empty dictionary. *)
Definition build_params_entry (st : State) : State :=
  let a := fresh (dom (heap st) ∪ {[params (self st)]}) in
  mkState (set_params a (self st)) (<[a := ∅]> (heap st)) (log st) (transport st).

(** An encoder for the examples that never fails: the value is filed in
    the request under the name of its param. *)
Definition encode_by_name (p : Param) (v : Value) (request : Request)
  : outcome string Request :=
  Ok (<[name p := v]> request).

(** * Properties *)

Lemma last_char_app a b : b ≠ "" → last_char (a +:+ b) = last_char b.
Proof.
  intros Hb. induction a as [|c a IH]; [done|].
  change (String c a +:+ b) with (String c (a +:+ b)).
  destruct (a +:+ b) as [|c' s'] eqn:E.
  - destruct a; [by subst|done].
  - exact IH.
Qed.

Lemma id_cached_refl op : id_cached op op.
Proof. by left. Qed.

Lemma id_cached_fields op op' :
  id_cached op op' →
  swagger_spec op' = swagger_spec op ∧ path_name op' = path_name op ∧
  http_method op' = http_method op ∧ op_spec op' = op_spec op ∧
  params op' = params op ∧ operation_id_of op' = operation_id_of op.
Proof. intros [-> | ->]; repeat split. Qed.

Lemma id_cached_trans op1 op2 op3 :
  id_cached op1 op2 → id_cached op2 op3 → id_cached op1 op3.
Proof.
  intros [-> | ->] [-> | ->]; try (by left); by right.
Qed.

Lemma frame_refl a st : frame a st st.
Proof. split; [apply id_cached_refl | done | done | done]. Qed.

Lemma frame_trans a st1 st2 st3 :
  frame a st1 st2 → frame a st2 st3 → frame a st1 st3.
Proof.
  intros [Hs1 Hh1 Hd1 Ht1] [Hs2 Hh2 Hd2 Ht2].
  destruct (id_cached_fields _ _ Hs1) as (_ & _ & _ & _ & Hp & _).
  split.
  - eapply id_cached_trans; eassumption.
  - intros b Hb Hin.
    assert (b ∈ dom (heap st2) ∪ {[params (self st2)]}) as Hin2.
    { rewrite Hp. apply elem_of_union in Hin as [Hin|Hin]; set_solver. }
    rewrite Hh2 by done. by apply Hh1.
  - set_solver.
  - congruence.
Qed.

(** The property computes [operation_id_of] and caches it. *)
Lemma operation_id_run st :
  operation_id st =
    (Ok (operation_id_of (self st)),
     mkState (set__operation_id (Some (operation_id_of (self st))) (self st))
             (heap st) (log st) (transport st)).
Proof.
  unfold operation_id, bind, get_self, operation_id_of. simpl.
  destruct st as [[sp pn hm os oid pa] hp lg tr]; simpl.
  destruct oid as [i|]; [reflexivity|].
  destruct (operationId os); reflexivity.
Qed.

Lemma operation_id_frame a st :
  frame a st (operation_id st).2.
Proof.
  rewrite operation_id_run. split; simpl; [by right | done | done | done].
Qed.

(** ** The loops of [construct_params] *)

Section Loops.
Context (encode_param : Param → Value → Request → outcome string Request).

Lemma marshal_default p dflt request :
  default_value p = Some dflt →
  marshal_param encode_param p VNone request = encode_param p dflt request.
Proof. unfold marshal_param. by intros ->. Qed.

Lemma remaining_run ps request st :
  construct_params_remaining encode_param ps request st =
    (to_result remaining_exn (remaining_pass encode_param ps request), st).
Proof.
  revert request. induction ps as [|p ps IH]; intros request;
    cbn [construct_params_remaining remaining_pass]; [done|].
  destruct (required p); [done|].
  unfold has_default. destruct (default_value p) as [dflt|] eqn:Hd; [|apply IH].
  unfold bind. rewrite (marshal_default _ _ _ Hd).
  destruct (encode_param p dflt request); simpl; [apply IH | done].
Qed.

Lemma deref_insert_eq st a d s l t :
  deref (mkState s (<[a := d]> (heap st)) l t) a = d.
Proof. unfold deref; simpl. by rewrite lookup_insert_eq. Qed.

Lemma deref_insert_ne st a b d s l t :
  b ≠ a → deref (mkState s (<[a := d]> (heap st)) l t) b = deref st b.
Proof. intros. unfold deref; simpl. by rewrite lookup_insert_ne. Qed.

Lemma dict_pop_frame a key st :
  frame a st (dict_pop a key st).2.
Proof.
  split; simpl.
  - by left.
  - intros b Hb _. by apply deref_insert_ne.
  - rewrite dom_insert. set_solver.
  - done.
Qed.

Lemma supplied_run l a request st :
  ∃ st',
    construct_params_supplied encode_param l a request st =
      (to_result (supplied_exn (operation_id_of (self st)))
         (outcome_map snd (supplied_pass encode_param l (deref st a) request)), st')
    ∧ frame a st st'
    ∧ ∀ table' request', supplied_pass encode_param l (deref st a) request = Ok (table', request') →
        deref st' a = table' ∧ self st' = self st.
Proof.
  revert request st. induction l as [|[n v] l IH]; intros request st;
    cbn [construct_params_supplied supplied_pass].
  - exists st. split; [done|]. split; [apply frame_refl|]. intros ?? [= <- <-]. done.
  - unfold bind at 1. 
    set (st1 := (dict_pop a n st).2).
    assert (dict_pop a n st = (Ok (deref st a !! n), st1)) as -> by done.
    pose proof (dict_pop_frame a n st) as Hf1. fold st1 in Hf1.
    assert (deref st1 a = delete n (deref st a)) as Hd1 by apply deref_insert_eq.
    assert (self st1 = self st) as Hs1 by done.
    destruct (deref st a !! n) as [p|] eqn:Hp.
    + unfold bind at 1. destruct (marshal_param encode_param p v request) as [request'|msg]; simpl.
      * destruct (IH request' st1) as (st' & Hrun & Hf & Hok).
        exists st'. rewrite Hrun, Hd1. split; [done|]. split.
        { eapply frame_trans; eassumption. }
        intros t' r' Hpass. rewrite Hd1 in Hok. destruct (Hok _ _ Hpass) as [? ?].
        split; [done | congruence].
      * exists st1. split; [done|]. split; [done|]. intros ?? [=].
    + unfold bind. rewrite operation_id_run. simpl. unfold raise.
      eexists. split; [reflexivity|]. split; [|intros ?? [=]].
      eapply frame_trans; [exact Hf1|].
      pose proof (operation_id_frame a st1) as Hf2. by rewrite operation_id_run in Hf2.
Qed.

(** *** The passes *)

Lemma supplied_pass_spec l table request :
  NoDup l.*1 →
  match supplied_pass encode_param l table request with
  | Ok (table', _) =>
      (∀ n, n ∈ l.*1 → is_Some (table !! n)) ∧
      (∀ n, table' !! n = if decide (n ∈ l.*1) then None else table !! n)
  | Raise (Unknown_param m) => m ∈ l.*1 ∧ table !! m = None
  | Raise (Supplied_failed _) => True
  end.
Proof.
  revert table request. induction l as [|[n v] l IH]; intros table request Hnd;
    cbn [supplied_pass].
  - split; [intros n Hn; by apply elem_of_nil in Hn | done].
  - rewrite fmap_cons in Hnd |- *. cbn [fst] in Hnd |- *.
    apply NoDup_cons in Hnd as [Hn Hnd].
    destruct (table !! n) as [p|] eqn:Hp; [|split; [left|done]].
    destruct (marshal_param encode_param p v request) as [request'|msg]; [|done].
    specialize (IH (delete n table) request' Hnd).
    destruct (supplied_pass encode_param l (delete n table) request')
      as [[table' r']|[m|msg]]; [| |done].
    + destruct IH as [Hall Hlook]. split.
      * intros k [->|Hk]%elem_of_cons; [by eexists|].
        destruct (Hall k Hk) as [q Hq].
        apply lookup_delete_Some in Hq as [_ Hq]. by eexists.
      * intros k. rewrite Hlook.
        destruct (decide (k = n)) as [->|Hkn].
        { rewrite lookup_delete_eq. repeat case_decide; try done. set_solver. }
        rewrite lookup_delete_ne by done.
        repeat case_decide; try done; set_solver.
    + destruct IH as [Hm Hnone]. split; [by right|].
      apply lookup_delete_None in Hnone as [->|?]; [done|done].
Qed.

Lemma remaining_pass_spec ps request :
  match remaining_pass encode_param ps request with
  | Ok _ => Forall (λ p, required p = false) ps
  | Raise (Required_missing p) => p ∈ ps ∧ required p = true
  | Raise (Default_failed _) => True
  end.
Proof.
  revert request. induction ps as [|p ps IH]; intros request;
    cbn [remaining_pass]; [done|].
  destruct (required p) eqn:Hr; [split; [left|done]|].
  assert (∀ r, match remaining_pass encode_param ps r with
               | Ok _ => Forall (λ p, required p = false) (p :: ps)
               | Raise (Required_missing q) => q ∈ p :: ps ∧ required q = true
               | Raise (Default_failed _) => True
               end) as Hstep.
  { intros r. specialize (IH r).
    destruct (remaining_pass encode_param ps r) as [|[q|]]; [|  |done].
    - by constructor.
    - destruct IH. split; [by right|done]. }
  destruct (default_value p) as [dflt|]; [|apply Hstep].
  destruct (encode_param p dflt request); [apply Hstep|done].
Qed.

(** A successful second pass, cut at one of its params with a
    default. *)
Lemma remaining_pass_split before p dflt after request request' :
  default_value p = Some dflt →
  remaining_pass encode_param (before ++ p :: after) request = Ok request' →
  ∃ r0 r1,
    remaining_pass encode_param before request = Ok r0 ∧
    encode_param p dflt r0 = Ok r1 ∧
    remaining_pass encode_param after r1 = Ok request'.
Proof.
  intros Hd. revert request. induction before as [|q before IH]; intros request;
    cbn [app remaining_pass].
  - destruct (required p); [done|]. rewrite Hd.
    destruct (encode_param p dflt request) as [r1|] eqn:He; [|done].
    intros Hrest. by exists request, r1.
  - destruct (required q); [done|].
    destruct (default_value q) as [dq|]; [|apply IH].
    destruct (encode_param q dq request); [apply IH|done].
Qed.

(** *** Iteration order *)
Context (order : DictOrder).

Lemma elem_of_items {V} (m : gmap string V) k v :
  (k, v) ∈ items order m ↔ m !! k = Some v.
Proof. rewrite (items_perm order). apply elem_of_map_to_list. Qed.

Lemma NoDup_items_keys {V} (m : gmap string V) : NoDup (items order m).*1.
Proof. rewrite (items_perm order). apply NoDup_fst_map_to_list. Qed.

Lemma elem_of_items_keys {V} (m : gmap string V) k :
  k ∈ (items order m).*1 ↔ is_Some (m !! k).
Proof.
  rewrite list_elem_of_fmap. split.
  - intros ([k' v] & -> & Hin). apply elem_of_items in Hin. by eexists.
  - intros [v Hv]. exists (k, v). split; [done|]. by apply elem_of_items.
Qed.

Lemma elem_of_values {V} (m : gmap string V) v :
  v ∈ values order m ↔ ∃ k, m !! k = Some v.
Proof.
  unfold values. rewrite list_elem_of_fmap. split.
  - intros ([k v'] & -> & Hin). apply elem_of_items in Hin. by exists k.
  - intros [k Hk]. exists (k, v). split; [done|]. by apply elem_of_items.
Qed.

(** *** [construct_params] *)

Lemma construct_params_run request op_kwargs st :
  ∃ st',
    construct_params order encode_param request op_kwargs st =
      (construct_params_outcome order encode_param (operation_id_of (self st))
         (self_params st) request op_kwargs, st')
    ∧ params_kept st st' ∧ transport st' = transport st.
Proof.
  unfold construct_params, bind at 1, get_self, bind at 1, dict_copy, new_dict.
  set (a := fresh (dom (heap st) ∪ {[params (self st)]})).
  assert (a ∉ dom (heap st) ∪ {[params (self st)]}) as Hfresh by apply is_fresh.
  set (st1 := mkState (self st) (<[a := deref st (params (self st))]> (heap st))
                      (log st) (transport st)).
  destruct (supplied_run (items order op_kwargs) a request st1)
    as (st2 & Hrun & Hf & Hok).
  assert (deref st1 a = self_params st) as Hd1 by apply deref_insert_eq.
  assert (params (self st) ≠ a) as Hne by set_solver.
  assert (deref st2 (params (self st)) = self_params st) as Hkept.
  { rewrite (frame_heap _ _ _ Hf) by (done || set_solver).
    by apply deref_insert_ne. }
  pose proof (id_cached_fields _ _ (frame_self _ _ _ Hf)) as (_&_&_&_&Hpa&_).
  unfold bind at 1. rewrite Hrun, Hd1. unfold construct_params_outcome.
  change (self st1) with (self st). rewrite Hd1 in Hok.
  destruct (supplied_pass encode_param (items order op_kwargs) (self_params st) request)
    as [[table' request']|e] eqn:Hpass; simpl.
  - destruct (Hok _ _ eq_refl) as [Hd2 Hs2].
    unfold bind, dict_itervalues. rewrite remaining_run, Hd2.
    exists st2. split; [done|]. split; [|apply (frame_transport _ _ _ Hf)].
    split; [apply (frame_self _ _ _ Hf)|].
    unfold self_params at 1. by rewrite Hpa.
  - exists st2. split; [done|]. split; [|apply (frame_transport _ _ _ Hf)].
    split; [apply (frame_self _ _ _ Hf)|].
    unfold self_params at 1. by rewrite Hpa.
Qed.
End Loops.

(** ** The claims about [Operation] *)

Section Claims.
Context (order : DictOrder).
Context (encode_param : Param → Value → Request → outcome string Request).

(** Shared: what [construct_params] can raise, from its outcome. *)
Lemma construct_params_outcome_raise op_id table request op_kwargs e :
  construct_params_outcome order encode_param op_id table request op_kwargs = Raise e →
  (∃ n, is_Some (op_kwargs !! n) ∧ table !! n = None ∧
        e = TypeError (op_id +:+ " does not have parameter " +:+ n))
  ∨ (∃ p n, table !! n = Some p ∧ op_kwargs !! n = None ∧ required p = true ∧
            (∀ k, is_Some (op_kwargs !! k) → is_Some (table !! k)) ∧
            e = TypeError (name p +:+ " is a required parameter"))
  ∨ (∃ msg, e = Propagated In_marshal_param msg).
Proof.
  unfold construct_params_outcome.
  pose proof (supplied_pass_spec encode_param (items order op_kwargs) table request
                (NoDup_items_keys order op_kwargs)) as Hs.
  destruct (supplied_pass encode_param (items order op_kwargs) table request)
    as [[table' request']|[m|msg]].
  - destruct Hs as [Hall Hlook].
    pose proof (remaining_pass_spec encode_param (values order table') request') as Hr.
    destruct (remaining_pass encode_param (values order table') request')
      as [|[p|msg]]; simpl; intros [= <-].
    + destruct Hr as [Hin Hreq]. apply elem_of_values in Hin as [n Hn].
      right; left. exists p, n. rewrite Hlook in Hn.
      case_decide as Hk; [done|].
      rewrite elem_of_items_keys in Hk.
      split; [done|]. split; [by apply eq_None_not_Some|]. split; [done|].
      split; [|done]. intros k Hk'. apply Hall. by apply elem_of_items_keys.
    + right; right. by eexists.
  - intros [= <-]. destruct Hs as [Hin Hnone]. left. exists m.
    by rewrite elem_of_items_keys in Hin.
  - intros [= <-]. right; right. by eexists.
Qed.

(** Shared: an unknown supplied name makes the outcome an exception. *)
Lemma construct_params_outcome_unknown op_id table request op_kwargs n :
  is_Some (op_kwargs !! n) → table !! n = None →
  ∃ e, construct_params_outcome order encode_param op_id table request op_kwargs = Raise e
     ∧ ((∃ m, is_Some (op_kwargs !! m) ∧ table !! m = None ∧
              e = TypeError (op_id +:+ " does not have parameter " +:+ m))
        ∨ (∃ msg, e = Propagated In_marshal_param msg)).
Proof.
  intros Hsup Hnone. unfold construct_params_outcome.
  pose proof (supplied_pass_spec encode_param (items order op_kwargs) table request
                (NoDup_items_keys order op_kwargs)) as Hs.
  destruct (supplied_pass encode_param (items order op_kwargs) table request)
    as [[table' request']|[m|msg]]; simpl.
  - destruct Hs as [Hall _]. rewrite <- (elem_of_items_keys order) in Hsup.
    destruct (Hall _ Hsup) as [p Hp]. congruence.
  - destruct Hs as [Hin Hm]. rewrite elem_of_items_keys in Hin.
    eexists. split; [done|]. left. by exists m.
  - eexists. split; [done|]. right. by eexists.
Qed.

(** Shared: an omitted required param makes the outcome an exception. *)
Lemma construct_params_outcome_missing op_id table request op_kwargs n p :
  table !! n = Some p → op_kwargs !! n = None → required p = true →
  ∃ e, construct_params_outcome order encode_param op_id table request op_kwargs = Raise e.
Proof.
  intros Hp Hkw Hreq. unfold construct_params_outcome.
  pose proof (supplied_pass_spec encode_param (items order op_kwargs) table request
                (NoDup_items_keys order op_kwargs)) as Hs.
  destruct (supplied_pass encode_param (items order op_kwargs) table request)
    as [[table' request']|e]; [|by eexists].
  destruct Hs as [_ Hlook].
  pose proof (remaining_pass_spec encode_param (values order table') request') as Hr.
  destruct (remaining_pass encode_param (values order table') request')
    as [|e]; simpl; [|by eexists].
  rewrite Forall_forall in Hr. assert (required p = false); [|congruence].
  apply Hr, elem_of_values. exists n. rewrite Hlook.
  rewrite decide_False; [done|]. rewrite elem_of_items_keys, Hkw. by intros [??].
Qed.

Lemma total_supplied_pass l table request msg :
  (∀ p v r, ∃ r', encode_param p v r = Ok r') →
  supplied_pass encode_param l table request ≠ Raise (Supplied_failed msg).
Proof.
  intros Htot. revert table request.
  induction l as [|[n v] l IH]; intros table request; cbn [supplied_pass]; [done|].
  destruct (table !! n) as [p|]; [|done].
  assert (∃ r', marshal_param encode_param p v request = Ok r') as [r' ->]; [|apply IH].
  unfold marshal_param. destruct v, (default_value p); apply Htot.
Qed.

Lemma total_remaining_pass ps request msg :
  (∀ p v r, ∃ r', encode_param p v r = Ok r') →
  remaining_pass encode_param ps request ≠ Raise (Default_failed msg).
Proof.
  intros Htot. revert request.
  induction ps as [|p ps IH]; intros request; cbn [remaining_pass]; [done|].
  destruct (required p); [done|].
  destruct (default_value p) as [dflt|]; [|apply IH].
  destruct (Htot p dflt request) as [r' ->]. apply IH.
Qed.

Lemma total_outcome op_id table request op_kwargs msg :
  (∀ p v r, ∃ r', encode_param p v r = Ok r') →
  construct_params_outcome order encode_param op_id table request op_kwargs
    ≠ Raise (Propagated In_marshal_param msg).
Proof.
  intros Htot. unfold construct_params_outcome.
  destruct (supplied_pass encode_param (items order op_kwargs) table request)
    as [[table' request']|[m|msg']] eqn:Hs; simpl; [|done|].
  - destruct (remaining_pass encode_param (values order table') request')
      as [|[p|msg']] eqn:Hr; simpl; [done|done|].
    by apply total_remaining_pass in Hr.
  - by apply total_supplied_pass in Hs.
Qed.


(** C7, as the code has it.  If every supplied name is declared and a
    required parameter is left after they are consumed,
    [construct_params] raises: the exception is the [TypeError] (the
    spec's MissingArgumentError) whose message is the name of a required
    parameter that was not supplied, followed by " is a required
    parameter", and nothing else (the operation id is not part of it),
    unless marshalling a default raised first, which cannot happen with
    an encoder that never fails. *)
Theorem missing_required_raises request op_kwargs st n p :
  (∀ k v, op_kwargs !! k = Some v → is_Some (self_params st !! k)) →
  self_params st !! n = Some p → op_kwargs !! n = None → required p = true →
  ∃ e st',
    construct_params order encode_param request op_kwargs st = (Raise e, st') ∧
    ((∃ q m, self_params st !! m = Some q ∧ op_kwargs !! m = None ∧
             required q = true ∧
             e = TypeError (name q +:+ " is a required parameter"))
     ∨ (∃ msg, e = Propagated In_marshal_param msg)) ∧
    ((∀ p v r, ∃ r', encode_param p v r = Ok r') →
     ∃ q m, self_params st !! m = Some q ∧ op_kwargs !! m = None ∧
            required q = true ∧
            e = TypeError (name q +:+ " is a required parameter")).
Proof.
  intros Hall Hp Hn Hreq.
  destruct (construct_params_run encode_param order request op_kwargs st)
    as (st' & Hrun & _ & _).
  destruct (construct_params_outcome_missing (operation_id_of (self st))
              (self_params st) request op_kwargs n p Hp Hn Hreq) as [e He].
  exists e, st'. rewrite Hrun, He. split; [done|].
  destruct (construct_params_outcome_raise _ _ _ _ _ He)
    as [(m & [w Hw] & Hm & _)|[(q & m & Hq & Hm & Hr & _ & ->)|[msg ->]]].
  - destruct (Hall _ _ Hw) as [q Hq]. congruence.
  - split; [left|intros _]; eauto 6.
  - split; [right; eauto|]. intros Htot. by apply total_outcome in He.
Qed.

(** C8.  When [construct_params] returns a request, every declared
    parameter that was not supplied and carries a default is not
    required and has been encoded with that default: the second loop
    visits it in its turn, the encoder is applied to the param, its
    default and the request built so far, and the request returned is
    what the rest of the loop makes of the result. *)
Theorem default_is_encoded request op_kwargs st request' st' n p dflt :
  construct_params order encode_param request op_kwargs st = (Ok request', st') →
  self_params st !! n = Some p → op_kwargs !! n = None →
  default_value p = Some dflt →
  required p = false ∧
  ∃ table1 request1 before after r0 r1,
    supplied_pass encode_param (items order op_kwargs) (self_params st) request
      = Ok (table1, request1) ∧
    values order table1 = before ++ p :: after ∧
    remaining_pass encode_param before request1 = Ok r0 ∧
    encode_param p dflt r0 = Ok r1 ∧
    remaining_pass encode_param after r1 = Ok request'.
Proof.
  intros Hok Hp Hn Hd.
  destruct (construct_params_run encode_param order request op_kwargs st)
    as (st2 & Hrun & _ & _).
  rewrite Hrun in Hok. injection Hok as Hout _. clear Hrun st2.
  unfold construct_params_outcome in Hout.
  pose proof (supplied_pass_spec encode_param (items order op_kwargs)
                (self_params st) request (NoDup_items_keys order op_kwargs)) as Hs.
  destruct (supplied_pass encode_param (items order op_kwargs) (self_params st) request)
    as [[table1 request1]|e]; [|done].
  destruct Hs as [_ Hlook].
  assert (p ∈ values order table1) as Hin.
  { apply elem_of_values. exists n. rewrite Hlook, decide_False; [done|].
    rewrite elem_of_items_keys, Hn. by intros [??]. }
  pose proof (remaining_pass_spec encode_param (values order table1) request1) as Hr.
  destruct (remaining_pass encode_param (values order table1) request1)
    as [r|e] eqn:Hpass; [|done].
  injection Hout as ->. split.
  { rewrite Forall_forall in Hr. by apply Hr. }
  apply list_elem_of_split in Hin as (before & after & Hsplit).
  rewrite Hsplit in Hpass.
  destruct (remaining_pass_split encode_param _ _ _ _ _ _ Hd Hpass)
    as (r0 & r1 & H0 & H1 & H2).
  by exists table1, request1, before, after, r0, r1.
Qed.

(** *** [construct_request] and [__call__] *)

Lemma construct_request_unfold kwargs st :
  construct_request order encode_param kwargs st =
    match default (VDict ∅) (kwargs !! "_request_options") with
    | VDict options =>
        construct_params order encode_param
          (fresh_request (self st) (default (VDict ∅) (options !! "headers")))
          (delete "_request_options" kwargs) st
    | request_options => (Raise (AttributeError request_options "get"), st)
    end.
Proof.
  unfold construct_request, bind at 1, get_self, bind at 1, value_get.
  by destruct (default (VDict ∅) (kwargs !! "_request_options")).
Qed.

Lemma params_kept_refl st : params_kept st st.
Proof. split; [apply id_cached_refl|done]. Qed.

Lemma params_kept_trans st1 st2 st3 :
  params_kept st1 st2 → params_kept st2 st3 → params_kept st1 st3.
Proof.
  intros [H1 E1] [H2 E2]. split; [eapply id_cached_trans; eassumption|congruence].
Qed.

Lemma construct_request_run kwargs st :
  ∃ st',
    construct_request order encode_param kwargs st =
      (construct_request_outcome order encode_param (self st) (self_params st) kwargs, st')
    ∧ params_kept st st' ∧ transport st' = transport st.
Proof.
  rewrite construct_request_unfold. unfold construct_request_outcome.
  destruct (default (VDict ∅) (kwargs !! "_request_options"));
    try (exists st; split; [done|]; split; [apply params_kept_refl|done]).
  apply construct_params_run.
Qed.

Context (get_swagger_type : Defn → outcome string string).
Context (post_receive : Json → option string → gmap string Defn →
                        gmap string Value → outcome string Value).

Lemma call_entry_kept kwargs st : params_kept st (call_entry kwargs st).
Proof. split; [by right|done]. Qed.

Lemma call_unfold kwargs st :
  __call__ order encode_param get_swagger_type post_receive kwargs st =
    match construct_request order encode_param kwargs (call_entry kwargs st) with
    | (Ok request, st') =>
        let c := http_client (swagger_spec (self st')) in
        (Ok (mkHTTPFuture c request (response_future get_swagger_type post_receive)),
         mkState (self st') (heap st') (log st') (transport st' ++ [(c, request)]))
    | (Raise e, st') => (Raise e, st')
    end.
Proof.
  unfold __call__, bind at 1. rewrite operation_id_run.
  unfold bind at 1, write_log. cbn [self heap log transport].
  unfold bind at 1. fold (call_entry kwargs st).
  by destruct (construct_request order encode_param kwargs (call_entry kwargs st))
    as [[request|e] st'].
Qed.

Lemma receive_run response_spec response kwargs st :
  self (receive get_swagger_type post_receive response_spec response kwargs st).2
    = self st ∧
  heap (receive get_swagger_type post_receive response_spec response kwargs st).2
    = heap st ∧
  transport (receive get_swagger_type post_receive response_spec response kwargs st).2
    = transport st.
Proof.
  unfold receive, bind, calling, ret, raise, write_log, get_self.
  repeat case_match; simplify_eq/=; done.
Qed.

Lemma response_future_unfold response kwargs st :
  response_future get_swagger_type post_receive response kwargs st =
    if bool_decide (text response = "") then (Ok VNone, st) else
    match responses (op_spec (self st)) with
    | None => (Raise (KeyError "responses"), st)
    | Some tbl =>
        match tbl !! pretty (status_code response) with
        | Some rs =>
            receive get_swagger_type post_receive (Some rs) response kwargs st
        | None =>
            match tbl !! "default" with
            | Some rs =>
                receive get_swagger_type post_receive (Some rs) response kwargs st
            | None =>
                if bool_decide (pretty (status_code response) = "200")
                then receive get_swagger_type post_receive None response kwargs
                             (warned st)
                else (Raise (SwaggerError
                               ("Response doesn't match any expected responses: "
                                +:+ response_str response)), st)
            end
        end
    end.
Proof.
  unfold response_future. case_bool_decide; [done|].
  unfold bind at 1, get_self, bind at 1.
  destruct (responses (op_spec (self st))) as [tbl|]; [|done].
  cbn [ret].
  destruct (tbl !! pretty (status_code response)) as [rs|]; [done|].
  destruct (tbl !! "default") as [rs|]; [done|].
  case_bool_decide; [|done].
  unfold bind at 1, bind at 1. by rewrite operation_id_run.
Qed.

Lemma response_future_kept response kwargs st :
  params_kept st (response_future get_swagger_type post_receive response kwargs st).2 ∧
  transport (response_future get_swagger_type post_receive response kwargs st).2
    = transport st.
Proof.
  assert (∀ rs st0, params_kept st st0 → transport st0 = transport st →
            params_kept st (receive get_swagger_type post_receive rs response kwargs st0).2 ∧
            transport (receive get_swagger_type post_receive rs response kwargs st0).2
              = transport st) as Hrec.
  { intros rs st0 Hk Ht.
    destruct (receive_run rs response kwargs st0) as (Hs & Hh & Ht').
    split; [|congruence].
    eapply params_kept_trans; [exact Hk|].
    split; [rewrite Hs; apply id_cached_refl|].
    unfold self_params, deref. by rewrite Hs, Hh. }
  rewrite response_future_unfold.
  repeat case_match; try (split; [apply params_kept_refl|done]);
    try (apply Hrec; [apply params_kept_refl|done]).
  apply Hrec; [|done]. split; [by right|done].
Qed.

(** C2.  For a response with a non-empty body and an operation with a
    response table, the response spec is selected in this order: the
    entry for the status code's string; else the [default] entry; else,
    for status 200, no spec at all, with a warning in the log and no
    error from the selection, so that [post_receive] is called without a
    result type; else a [SwaggerError] (the spec's
    UnexpectedResponseError) whose message carries the response. *)
Theorem response_spec_selection response kwargs st tbl :
  text response ≠ "" →
  responses (op_spec (self st)) = Some tbl →
  (∀ rs, tbl !! pretty (status_code response) = Some rs →
     response_future get_swagger_type post_receive response kwargs st =
     receive get_swagger_type post_receive (Some rs) response kwargs st) ∧
  (∀ rs, tbl !! pretty (status_code response) = None →
     tbl !! "default" = Some rs →
     response_future get_swagger_type post_receive response kwargs st =
     receive get_swagger_type post_receive (Some rs) response kwargs st) ∧
  (tbl !! pretty (status_code response) = None → tbl !! "default" = None →
     status_code response = 200%Z →
     response_future get_swagger_type post_receive response kwargs st =
     receive get_swagger_type post_receive None response kwargs (warned st) ∧
     (∀ msg, (response_future get_swagger_type post_receive response kwargs st).1
             ≠ Raise (SwaggerError msg)) ∧
     (∀ j, json response = Ok j →
        (response_future get_swagger_type post_receive response kwargs st).1 =
        to_result (Propagated In_post_receive)
          (post_receive j None (definitions (swagger_spec (self st))) kwargs))) ∧
  (tbl !! pretty (status_code response) = None → tbl !! "default" = None →
     status_code response ≠ 200%Z →
     response_future get_swagger_type post_receive response kwargs st =
     (Raise (SwaggerError ("Response doesn't match any expected responses: "
                           +:+ response_str response)), st)).
Proof.
  intros Htext Htbl. rewrite response_future_unfold.
  rewrite bool_decide_eq_false_2 by done. rewrite Htbl.
  split; [by intros rs ->|]. split; [by intros rs -> ->|]. split.
  - intros -> -> Hcode. rewrite Hcode.
    split; [done|]. change (bool_decide (pretty 200%Z = "200")) with true. cbv iota.
    unfold receive, bind, calling, ret, raise, write_log, get_self.
    split.
    + intros msg. repeat case_match; simplify_eq/=; done.
    + intros j ->. simpl. by destruct (post_receive _ _ _ _).
  - intros -> -> Hcode. rewrite bool_decide_eq_false_2; [done|].
    intros Heq. apply Hcode. by apply (inj pretty).
Qed.

(** C5.  Resolving the future of a successful call on a response whose
    body is empty yields [None] and changes nothing, whatever the
    operation's response specs declare. *)
Theorem empty_body_no_result kwargs st f st1 response rkwargs st2 :
  __call__ order encode_param get_swagger_type post_receive kwargs st = (Ok f, st1) →
  text response = "" →
  result f response st2 = (Ok VNone, st2) ∧
  response_callback f response rkwargs st2 = (Ok VNone, st2) ∧
  response_future get_swagger_type post_receive response rkwargs st2 = (Ok VNone, st2).
Proof.
  intros Hcall Htext. rewrite call_unfold in Hcall.
  assert (∀ kw, response_future get_swagger_type post_receive response kw st2
                = (Ok VNone, st2)) as Hfut.
  { intros kw. rewrite response_future_unfold. by rewrite bool_decide_eq_true_2. }
  destruct (construct_request order encode_param kwargs (call_entry kwargs st))
    as [[request|e] st']; [|done].
  injection Hcall as <- _. unfold result. cbn [response_callback].
  by rewrite !Hfut.
Qed.

(** C4.  A call that raises leaves the transport as it was: the request
    is constructed, and validated, before anything is handed to the
    transport.  A call with a supplied name that is not declared, or
    with a required parameter omitted, does raise; a call that returns
    a future has handed exactly its request to the transport. *)
Theorem failed_call_never_reaches_transport kwargs st :
  (∀ e st', __call__ order encode_param get_swagger_type post_receive kwargs st
              = (Raise e, st') →
            transport st' = transport st) ∧
  (∀ f st', __call__ order encode_param get_swagger_type post_receive kwargs st
              = (Ok f, st') →
            transport st' = transport st ++ [(future_http_client f, future_request f)]) ∧
  (∀ n v, kwargs !! n = Some v → n ≠ "_request_options" →
          self_params st !! n = None →
          ∃ e st', __call__ order encode_param get_swagger_type post_receive kwargs st
                     = (Raise e, st') ∧ transport st' = transport st) ∧
  (∀ n p, self_params st !! n = Some p → required p = true → kwargs !! n = None →
          ∃ e st', __call__ order encode_param get_swagger_type post_receive kwargs st
                     = (Raise e, st') ∧ transport st' = transport st).
Proof.
  rewrite call_unfold.
  destruct (construct_request_run kwargs (call_entry kwargs st))
    as (st' & Hrun & [_ Hpar] & Htr).
  rewrite Hrun. change (self_params (call_entry kwargs st)) with (self_params st) in *.
  change (transport (call_entry kwargs st)) with (transport st) in Htr.
  assert (∀ e, construct_request_outcome order encode_param (self (call_entry kwargs st))
                 (self_params st) kwargs = Raise e →
               ∃ e0 st0,
                 match construct_request_outcome order encode_param (self (call_entry kwargs st))
                         (self_params st) kwargs with
                 | Ok request =>
                     let c := http_client (swagger_spec (self st')) in
                     (Ok (mkHTTPFuture c request
                            (response_future get_swagger_type post_receive)),
                      mkState (self st') (heap st') (log st')
                              (transport st' ++ [(c, request)]))
                 | Raise e => (Raise e, st')
                 end = (Raise e0, st0) ∧ transport st0 = transport st) as Hfail.
  { intros e ->. by exists e, st'. }
  split; [|split; [|split]].
  - intros e st0. by destruct (construct_request_outcome _ _ _ _ _); intros [= <- <-].
  - intros f st0. destruct (construct_request_outcome _ _ _ _ _); intros [= <- <-]; simpl.
    by rewrite Htr.
  - intros n v Hv Hn Hnone. unfold construct_request_outcome in *.
    destruct (default (VDict ∅) (kwargs !! "_request_options"));
      try (by eapply Hfail).
    edestruct construct_params_outcome_unknown as (e & He & _);
      [| exact Hnone | eapply Hfail, He].
    rewrite lookup_delete_ne by done. by eexists.
  - intros n p Hp Hreq Hnone. unfold construct_request_outcome in *.
    destruct (default (VDict ∅) (kwargs !! "_request_options"));
      try (by eapply Hfail).
    edestruct construct_params_outcome_missing as (e & He);
      [exact Hp | | exact Hreq | eapply Hfail, He].
    destruct (decide (n = "_request_options")) as [->|Hne];
      [apply lookup_delete_eq | by rewrite lookup_delete_ne].
Qed.

(** *** [build_params] *)

Lemma build_params_loop_run param_specs st :
  ∃ st',
    build_params_loop param_specs st = (Ok (), st') ∧
    self st' = self st ∧
    self_params st' =
      declared_table (swagger_spec (self st)) param_specs (self_params st) ∧
    log st' = log st ∧ transport st' = transport st.
Proof.
  revert st. induction param_specs as [|ps l IH]; intros st;
    cbn [build_params_loop declared_table foldl].
  - by exists st.
  - unfold bind at 1, get_self, bind at 1, dict_setitem.
    match goal with |- context [build_params_loop l ?s] => set (st1 := s) end.
    destruct (IH st1) as (st' & Hrun & Hs & Hp & Hl & Ht).
    exists st'. split; [done|]. split; [done|]. split; [|done].
    rewrite Hp. unfold self_params at 1, st1. cbn [self].
    by rewrite deref_insert_eq.
Qed.

Lemma build_params_run st ps :
  paths (spec_dict (swagger_spec (self st))) !! path_name (self st) = Some ps →
  ∃ st',
    build_params st = (Ok (), st') ∧
    (∃ a, self st' = set_params a (self st)) ∧
    self_params st' =
      declared_table (swagger_spec (self st))
        (default [] (parameters (op_spec (self st))) ++
         default [] (path_parameters ps)) ∅ ∧
    transport st' = transport st.
Proof.
  intros Hps. unfold build_params, bind at 1, new_dict.
  set (a := fresh (dom (heap st) ∪ {[params (self st)]})).
  unfold bind at 1, modify_self. cbn [self heap log transport].
  unfold bind at 1, get_self. cbn [self].
  unfold bind at 1, subscript. cbn [swagger_spec path_name set_params].
  rewrite Hps. cbn [ret].
  match goal with |- context [build_params_loop _ ?s] => set (st1 := s) end.
  destruct (build_params_loop_run
              (default [] (parameters (op_spec (set_params a (self st)))) ++
               default [] (path_parameters ps)) st1)
    as (st' & Hrun & Hs & Hp & Hl & Ht).
  exists st'. split; [exact Hrun|]. split; [by exists a|]. split; [|done].
  rewrite Hp. f_equal. unfold self_params, st1. cbn [self params set_params].
  by rewrite deref_insert_eq.
Qed.

Lemma from_spec_run sp pn hm os st ps :
  paths (spec_dict sp) !! pn = Some ps →
  ∃ op st',
    from_spec sp pn hm os st = (Ok op, st') ∧ self st' = op ∧
    swagger_spec op = sp ∧ path_name op = pn ∧ http_method op = hm ∧
    op_spec op = os ∧ _operation_id op = None ∧
    self_params st' =
      declared_table sp
        (default [] (parameters os) ++ default [] (path_parameters ps)) ∅.
Proof.
  intros Hps. unfold from_spec.
  set (st1 := (init sp pn hm os st).2).
  unfold bind at 1. change (init sp pn hm os st) with ((Ok (), st1) : Result () * State).
  destruct (build_params_run st1 ps Hps) as (st' & Hrun & [a Hs] & Hp & _).
  unfold bind. rewrite Hrun. unfold get_self.
  exists (self st'), st'. rewrite Hs. by repeat split.
Qed.

Lemma declared_table_keeps sp after table n p :
  n ∉ ps_name <$> after → table !! n = Some p →
  declared_table sp after table !! n = Some p.
Proof.
  revert table. induction after as [|q after IH]; intros table Hlast Hm;
    cbn [declared_table foldl]; [done|].
  rewrite fmap_cons in Hlast. apply not_elem_of_cons in Hlast as [Hne Hlast].
  apply IH; [done|]. by rewrite lookup_insert_ne.
Qed.

(** The entry for a name is the last declaration of that name. *)
Lemma declared_table_last sp before decl after table :
  ps_name decl ∉ ps_name <$> after →
  declared_table sp (before ++ decl :: after) table !! ps_name decl
    = Some (mkParam sp decl).
Proof.
  intros Hlast. unfold declared_table. rewrite foldl_app. cbn [foldl].
  apply declared_table_keeps; [done|]. apply lookup_insert_eq.
Qed.

(** C1, as the code has it.  [build_params] enters the operation's own
    declarations first and the path's declarations after them, each
    under its name, so when the parent path declares a parameter with
    the same name as one of the operation's own, the combined table
    keeps the path-level declaration (the last one of that name in the
    path's list): its value, location, default and required flag. *)
Theorem path_level_declaration_wins sp pn hm os st op st' ps
    op_decl path_decl before after :
  from_spec sp pn hm os st = (Ok op, st') →
  paths (spec_dict sp) !! pn = Some ps →
  op_decl ∈ default [] (parameters os) →
  default [] (path_parameters ps) = before ++ path_decl :: after →
  ps_name path_decl ∉ ps_name <$> after →
  ps_name op_decl = ps_name path_decl →
  ∃ p, self_params st' !! ps_name op_decl = Some p ∧
       p = mkParam sp path_decl ∧
       location p = ps_in path_decl ∧
       default_value p = ps_default path_decl ∧
       required p = ps_required path_decl.
Proof.
  intros Hfrom Hps _ Hpath Hlast Hname.
  destruct (from_spec_run sp pn hm os st ps Hps) as (op' & st2 & Hrun & _ & Htable).
  rewrite Hrun in Hfrom. injection Hfrom as -> ->.
  destruct Htable as (_ & _ & _ & _ & _ & ->).
  exists (mkParam sp path_decl). split; [|done].
  rewrite Hname, Hpath, app_assoc. by apply declared_table_last.
Qed.

(** C9.  No method mutates the table [self.params]: after
    [construct_params], [construct_request], [__call__] and the
    resolution of a future, whether they return or raise, the Operation
    holds the same dictionary object with the same content (the supplied
    names are popped from a copy).  In particular, after any call on an
    operation fresh from [build_params], the table is what
    [build_params] produced. *)
Theorem params_never_mutated request kwargs response rkwargs st :
  params_kept st (construct_params order encode_param request kwargs st).2 ∧
  params_kept st (construct_request order encode_param kwargs st).2 ∧
  params_kept st (__call__ order encode_param get_swagger_type post_receive
                           kwargs st).2 ∧
  params_kept st (response_future get_swagger_type post_receive
                                  response rkwargs st).2 ∧
  (∀ st0 ps,
     paths (spec_dict (swagger_spec (self st0))) !! path_name (self st0) = Some ps →
     st = (build_params st0).2 →
     self_params (__call__ order encode_param get_swagger_type post_receive
                           kwargs st).2 =
     declared_table (swagger_spec (self st0))
       (default [] (parameters (op_spec (self st0))) ++
        default [] (path_parameters ps)) ∅).
Proof.
  assert (params_kept st (__call__ order encode_param get_swagger_type post_receive
                                   kwargs st).2) as Hcall.
  { rewrite call_unfold.
    destruct (construct_request_run kwargs (call_entry kwargs st))
      as (st' & -> & Hk & _).
    eapply params_kept_trans; [apply call_entry_kept|].
    by destruct (construct_request_outcome _ _ _ _ _). }
  split; [|split; [|split; [|split]]].
  - by destruct (construct_params_run encode_param order request kwargs st)
      as (st' & -> & Hk & _).
  - by destruct (construct_request_run kwargs st) as (st' & -> & Hk & _).
  - exact Hcall.
  - apply response_future_kept.
  - intros st0 ps Hps ->. destruct Hcall as [_ ->].
    destruct (build_params_run st0 ps Hps) as (st' & Hrun & _ & Htab & _).
    rewrite Hrun. exact Htab.
Qed.

(** C10.  [construct_request] takes [_request_options] out of the
    keyword arguments before the parameters are validated; its [headers]
    entry, an empty dictionary when absent, is the [headers] of the
    request that [construct_params] starts from, whose [method] is the
    operation's HTTP method, whose [url] is the spec's [api_url] followed
    by the path name and whose [params] is empty.  A [_request_options]
    that is no dictionary has no [get]: the [AttributeError] of that
    lookup is raised before anything is validated.  So when every other
    supplied name is declared, the unknown-parameter error is not
    raised, and in no case is it raised for [_request_options]. *)
Theorem request_options_reserved kwargs st :
  construct_request order encode_param kwargs st =
    match default (VDict ∅) (kwargs !! "_request_options") with
    | VDict options =>
        construct_params order encode_param
          (fresh_request (self st) (default (VDict ∅) (options !! "headers")))
          (delete "_request_options" kwargs) st
    | request_options => (Raise (AttributeError request_options "get"), st)
    end ∧
  (∀ headers,
     fresh_request (self st) headers !! "method" = Some (VStr (http_method (self st))) ∧
     fresh_request (self st) headers !! "url" =
       Some (VStr (api_url (swagger_spec (self st)) +:+ path_name (self st))) ∧
     fresh_request (self st) headers !! "params" = Some (VDict ∅) ∧
     fresh_request (self st) headers !! "headers" = Some headers ∧
     dom (fresh_request (self st) headers) =
       {["method"; "url"; "params"; "headers"]}) ∧
  ((∀ n v, kwargs !! n = Some v → n ≠ "_request_options" →
           is_Some (self_params st !! n)) →
   ∀ e st', construct_request order encode_param kwargs st = (Raise e, st') →
     (∃ request_options,
        kwargs !! "_request_options" = Some request_options ∧
        e = AttributeError request_options "get")
     ∨ (∃ p n, self_params st !! n = Some p ∧ required p = true ∧
               e = TypeError (name p +:+ " is a required parameter"))
     ∨ (∃ msg, e = Propagated In_marshal_param msg)) ∧
  (∀ e st', construct_request order encode_param kwargs st = (Raise e, st') →
     e ≠ TypeError (operation_id_of (self st) +:+
                    " does not have parameter " +:+ "_request_options")).
Proof.
  split; [apply construct_request_unfold|]. split; [|split].
  - intros headers. unfold fresh_request.
    repeat split; by simplify_map_eq.
  - intros Hall e st'.
    destruct (construct_request_run kwargs st) as (st2 & -> & _).
    intros [= He _]. unfold construct_request_outcome in He.
    assert ((∃ options, default (VDict ∅) (kwargs !! "_request_options") = VDict options)
            ∨ kwargs !! "_request_options"
                = Some (default (VDict ∅) (kwargs !! "_request_options"))) as Hopt.
    { destruct (kwargs !! "_request_options") as [v|]; [by right|left; by eexists]. }
    destruct (default (VDict ∅) (kwargs !! "_request_options"));
      try (injection He as <-; left; destruct Hopt as [[? [=]]|Hopt]; by eexists).
    clear Hopt.
    destruct (construct_params_outcome_raise _ _ _ _ _ He)
      as [(m & [w Hw] & Hm & _)|[(p & n & Hp & Hn & Hr & _ & ->)|[msg ->]]].
    + apply lookup_delete_Some in Hw as [Hne Hw].
      destruct (Hall _ _ Hw) as [q Hq]; [done|congruence].
    + right; left. eauto.
    + right; right. eauto.
  - intros e st'.
    destruct (construct_request_run kwargs st) as (st2 & -> & _).
    intros [= He _]. unfold construct_request_outcome in He.
    destruct (default (VDict ∅) (kwargs !! "_request_options"));
      try (by injection He as <-).
    destruct (construct_params_outcome_raise _ _ _ _ _ He)
      as [(m & [w Hw] & Hm & ->)|[(p & n & _ & _ & _ & _ & ->)|[msg ->]]]; [| |done].
    + apply lookup_delete_Some in Hw as [Hne Hw].
      intros [= Heq]. by apply String.app_inj, String.app_inj in Heq.
    + intros [= Heq]. apply (f_equal last_char) in Heq.
      rewrite !last_char_app in Heq by done. done.
Qed.
End Claims.

(** ** Dates *)

Lemma char_digit_char n : 0 <= n <= 9 → char_digit (digit_char n) = Some n.
Proof.
  intros Hn.
  assert (n = 0 ∨ n = 1 ∨ n = 2 ∨ n = 3 ∨ n = 4 ∨ n = 5 ∨ n = 6 ∨ n = 7 ∨ n = 8 ∨ n = 9)
    as Hc by lia.
  repeat (destruct Hc as [->|Hc]; [reflexivity|]). by subst.
Qed.

Lemma digits2_pad n :
  0 <= n <= 99 →
  digits2 (digit_char (n / 10)) (digit_char (n mod 10)) = Some n.
Proof.
  intros Hn. unfold digits2.
  rewrite !char_digit_char by (Z.to_euclidean_division_equations; lia).
  f_equal. Z.to_euclidean_division_equations; lia.
Qed.

Lemma days_in_month_le y m : days_in_month y m <= 31.
Proof. unfold days_in_month. repeat case_match; lia. Qed.

Lemma valid_date_bounds y m d :
  valid_date y m d = true → 1 <= y <= 9999 ∧ 1 <= m <= 12 ∧ 1 <= d <= 31.
Proof.
  unfold valid_date. rewrite !andb_true_iff, !Z.leb_le.
  pose proof (days_in_month_le y m). lia.
Qed.

Lemma parse_isoformat y m d :
  valid_date y m d = true → parse_date (isoformat y m d) = Some (y, m, d).
Proof.
  intros Hv. destruct (valid_date_bounds _ _ _ Hv) as (Hy & Hm & Hd).
  unfold isoformat, pad4, pad2, parse_date.
  replace (y / 1000) with (y / 100 / 10) by (Z.to_euclidean_division_equations; lia).
  replace (y / 100 mod 10) with ((y / 100) mod 10) by done.
  rewrite (digits2_pad (y / 100)) by (Z.to_euclidean_division_equations; lia).
  rewrite (digits2_pad (y mod 100)) by (Z.to_euclidean_division_equations; lia).
  rewrite (digits2_pad m) by lia. rewrite (digits2_pad d) by lia.
  replace (100 * (y / 100) + y mod 100) with y
    by (Z.to_euclidean_division_equations; lia).
  by rewrite Hv.
Qed.

Lemma parse_isoformat_datetime y m d h mi s :
  valid_date y m d = true → valid_time h mi s = true →
  parse_datetime (isoformat_datetime y m d h mi s) = Some (y, m, d, h, mi, s).
Proof.
  intros Hv Ht. destruct (valid_date_bounds _ _ _ Hv) as (Hy & Hm & Hd).
  pose proof Ht as Ht'. unfold valid_time in Ht'.
  rewrite !andb_true_iff, !Z.leb_le in Ht'.
  unfold isoformat_datetime, pad4, pad2, parse_datetime.
  replace (y / 1000) with (y / 100 / 10) by (Z.to_euclidean_division_equations; lia).
  replace (y / 100 mod 10) with ((y / 100) mod 10) by done.
  rewrite (digits2_pad (y / 100)) by (Z.to_euclidean_division_equations; lia).
  rewrite (digits2_pad (y mod 100)) by (Z.to_euclidean_division_equations; lia).
  rewrite (digits2_pad m), (digits2_pad d), (digits2_pad h), (digits2_pad mi),
    (digits2_pad s) by lia.
  replace (100 * (y / 100) + y mod 100) with y
    by (Z.to_euclidean_division_equations; lia).
  by rewrite Hv, Ht.
Qed.

(** ** Round trip *)

Lemma primitive_round_trip ty format v :
  valid_primitive ty format v = true →
  ∃ w, marshal_primitive ty format v = Ok w ∧ unmarshal_primitive ty format w = Ok v.
Proof.
  unfold valid_primitive, marshal_primitive, unmarshal_primitive.
  destruct ty, v; try done.
  - intros Hv. apply negb_true_iff in Hv. rewrite Hv.
    apply orb_false_iff in Hv as [-> ->]. by eexists.
  - intros [-> Hd]%andb_true_iff. eexists. split; [done|]. cbv beta iota.
    by rewrite (parse_isoformat _ _ _ Hd).
  - intros [[Hf Hd]%andb_true_iff Ht]%andb_true_iff. rewrite Hf.
    eexists. split; [done|].
    assert (is_format format "date" = false) as ->.
    { unfold is_format in *. apply bool_decide_eq_true in Hf as ->.
      by apply bool_decide_eq_false. }
    cbv beta iota. by rewrite (parse_isoformat_datetime _ _ _ _ _ _ Hd Ht).
  - intros _. by eexists.
  - intros _. by eexists.
  - intros _. by eexists.
  - intros _. by eexists.
  - intros _. by eexists.
Qed.

Section RoundTrip.
Context (enc : Defn → Value → outcome marshal_error Json).
Context (dec : Defn → Json → outcome marshal_error Value).
Context (ok : Defn → Value → bool).
Hypothesis step : ∀ d v, ok d v = true → ∃ w, enc d v = Ok w ∧ dec d w = Ok v.

Lemma list_round_trip d l :
  forallb (ok d) l = true →
  ∃ ws, map_outcome (enc d) l = Ok ws ∧ map_outcome (dec d) ws = Ok l.
Proof.
  induction l as [|v l IH]; cbn [forallb map_outcome]; [by exists []|].
  intros [Hv Hl]%andb_true_iff.
  destruct (step _ _ Hv) as (w & Hw & Hw'). destruct (IH Hl) as (ws & Hws & Hws').
  exists (w :: ws). cbn [map_outcome]. by rewrite Hw, Hws, Hw', Hws'.
Qed.

(** Decoding the properties looks only at the declared names. *)
Lemma unmarshal_properties_local properties required wire wire' :
  (∀ k, k ∈ properties.*1 → wire !! k = wire' !! k) →
  unmarshal_properties dec properties required wire =
  unmarshal_properties dec properties required wire'.
Proof.
  induction properties as [|[n d] rest IH]; intros Hagree;
    cbn [unmarshal_properties]; [done|].
  rewrite fmap_cons in Hagree. cbn [fst] in Hagree.
  rewrite <- (Hagree n) by left.
  rewrite IH by (intros k Hk; apply Hagree; by right). done.
Qed.

Lemma properties_round_trip properties required fields :
  NoDup properties.*1 →
  forallb (λ pd, match fields !! pd.1 with
                 | Some v => ok pd.2 v
                 | None => negb (bool_decide (pd.1 ∈ required))
                 end) properties = true →
  ∃ wire back,
    marshal_properties enc properties required fields = Ok wire ∧
    unmarshal_properties dec properties required wire = Ok back ∧
    (∀ k, wire !! k = None ↔ k ∉ properties.*1 ∨ fields !! k = None) ∧
    (∀ k, back !! k = if decide (k ∈ properties.*1) then fields !! k else None).
Proof.
  induction properties as [|[n d] rest IH];
    cbn [marshal_properties unmarshal_properties forallb].
  - intros _ _. exists ∅, ∅. split; [done|]. split; [done|]. split.
    + intros k. rewrite lookup_empty. split; [intros _; left; apply not_elem_of_nil|done].
    + intros k. rewrite lookup_empty.
      destruct (decide (k ∈ [].*1)) as [Hk|]; [|done]. by apply elem_of_nil in Hk.
  - rewrite fmap_cons. cbn [fst snd].
    intros [Hn Hnd]%NoDup_cons [Hhere Hrest]%andb_true_iff.
    destruct (IH Hnd Hrest) as (wire & back & Hm & Hu & Hwire & Hback).
    destruct (fields !! n) as [v|] eqn:Hv.
    + destruct (step _ _ Hhere) as (w & Hw & Hw').
      exists (<[n := w]> wire), (<[n := v]> back).
      rewrite Hw, Hm. cbn [outcome_bind]. split; [done|].
      rewrite lookup_insert_eq, Hw'. cbn [outcome_bind].
      rewrite (unmarshal_properties_local rest required _ wire), Hu.
      2:{ intros k Hk. rewrite lookup_insert_ne; [done|]. by intros ->. }
      split; [done|]. split.
      * intros k. destruct (decide (k = n)) as [->|Hne].
        { rewrite lookup_insert_eq, Hv.
          split; [done|]. intros [Hk|?]; [|done]. exfalso. apply Hk. left. }
        rewrite lookup_insert_ne by done. rewrite Hwire, not_elem_of_cons. naive_solver.
      * intros k. destruct (decide (k = n)) as [->|Hne].
        { rewrite lookup_insert_eq, Hv. by rewrite decide_True by left. }
        rewrite lookup_insert_ne by done. rewrite Hback.
        repeat case_decide; try done; set_solver.
    + apply negb_true_iff in Hhere. rewrite Hhere.
      exists wire, back. split; [done|].
      assert (wire !! n = None) as -> by (apply Hwire; by left).
      split; [done|]. split.
      * intros k. rewrite Hwire, not_elem_of_cons.
        destruct (decide (k = n)) as [->|Hne]; naive_solver.
      * intros k. rewrite Hback. destruct (decide (k = n)) as [->|Hne].
        { rewrite decide_False by done. rewrite decide_True by left. done. }
        repeat case_decide; try done; set_solver.
Qed.

Lemma valid_properties_round_trip properties required fields :
  valid_properties ok properties required fields = true →
  ∃ wire,
    marshal_properties enc properties required fields = Ok wire ∧
    unmarshal_properties dec properties required wire = Ok fields.
Proof.
  unfold valid_properties.
  intros [[Hnd Hdom]%andb_true_iff Hall]%andb_true_iff.
  apply bool_decide_eq_true in Hnd, Hdom.
  destruct (properties_round_trip _ _ _ Hnd Hall) as (wire & back & Hm & Hu & _ & Hback).
  exists wire. split; [done|]. rewrite Hu. f_equal.
  apply map_eq. intros k. rewrite Hback. case_decide as Hk; [done|].
  symmetry. apply not_elem_of_dom. intros Hin. apply Hk.
  apply Hdom in Hin. by apply elem_of_list_to_set in Hin.
Qed.
End RoundTrip.

Lemma forallb_mono {A} (f g : A → bool) l :
  (∀ x, f x = true → g x = true) → forallb f l = true → forallb g l = true.
Proof.
  intros Hfg. induction l as [|x l IH]; cbn [forallb]; [done|].
  intros [Hx Hl]%andb_true_iff. by rewrite (Hfg _ Hx), (IH Hl).
Qed.

(** More fuel keeps an instance valid. *)
Lemma valid_S fuel defs d v :
  valid fuel defs d v = true → valid (S fuel) defs d v = true.
Proof.
  revert d v. induction fuel as [|fuel IH]; intros d v; [done|].
  intros Hv. cbn [valid] in Hv |- *.
  destruct d as [ty format enum|items|oname props req|target]; [done| | |].
  - destruct v; try done. revert Hv. apply forallb_mono, IH.
  - assert (∀ fields,
              valid_properties (valid fuel defs) props req fields = true →
              valid_properties (valid (S fuel) defs) props req fields = true) as Hp.
    { intros fields. unfold valid_properties.
      intros [Hhead Hall]%andb_true_iff. rewrite Hhead. cbn [andb].
      revert Hall. apply forallb_mono. intros [n d']. cbn [fst snd].
      destruct (fields !! n); [apply IH|done]. }
    destruct oname as [n|], v; try done.
    + apply andb_true_iff in Hv as [-> Hv]. by apply Hp.
    + by apply Hp.
  - destruct (defs !! target); [by apply IH|done].
Qed.

Lemma valid_le fuel fuel' defs d v :
  (fuel ≤ fuel')%nat → valid fuel defs d v = true → valid fuel' defs d v = true.
Proof. induction 1; [done|]. intros Hv. by apply valid_S, IHle. Qed.

(** C3.  Round trip: for a value that is a valid instance of a schema
    definition (checked with some fuel), encoding succeeds with that much
    fuel or more, and decoding the result under the same definition gives
    the value back.  This covers primitives, arrays and objects, nested and
    through references, self-referential ones included. *)
Theorem marshal_round_trip fuel defs d v :
  valid fuel defs d v = true →
  ∀ fuel', (fuel ≤ fuel')%nat →
    ∃ w, marshal fuel' defs d v = Ok w ∧ unmarshal fuel' defs d w = Ok v.
Proof.
  intros Hv fuel' Hle. apply (valid_le _ _ _ _ _ Hle) in Hv. clear fuel Hle.
  revert d v Hv. induction fuel' as [|fuel IH]; intros d v; [done|].
  cbn [valid marshal unmarshal]. destruct d as [ty format enum|items|oname props req|target].
  - apply primitive_round_trip.
  - destruct v; try done. intros Hl.
    destruct (list_round_trip _ _ _ IH items l Hl) as (ws & Hws & Hws').
    exists (JArr ws). rewrite Hws. cbn [outcome_map]. by rewrite Hws'.
  - destruct oname as [n|], v; try done; cbn [fields_of].
    + intros [->%bool_decide_eq_true Hp]%andb_true_iff.
      destruct (valid_properties_round_trip _ _ _ IH _ _ _ Hp) as (wire & Hm & Hu).
      exists (JObj wire). rewrite Hm. cbn [outcome_map]. by rewrite Hu.
    + intros Hp.
      destruct (valid_properties_round_trip _ _ _ IH _ _ _ Hp) as (wire & Hm & Hu).
      exists (JObj wire). rewrite Hm. cbn [outcome_map]. by rewrite Hu.
  - destruct (defs !! target) as [d'|]; [apply IH|done].
Qed.

Example test_primitive_array :
  marshal_array 2 empty_swagger_spec int_array_spec [VInt 1; VInt 2; VInt 3]
  = Ok (JArr [JInt 1; JInt 2; JInt 3]).
Proof. reflexivity. Qed.

Example test_empty_array :
  marshal_array 2 empty_swagger_spec int_array_spec [] = Ok (JArr []).
Proof. reflexivity. Qed.

Example test_array_of_array :
  marshal_array 3 empty_swagger_spec array_of_array_spec
    [VList [VStr "one"]; VList [VStr "two"; VStr "three"];
     VList [VStr "four"; VStr "five"; VStr "six"]]
  = Ok (JArr [JArr [JStr "one"]; JArr [JStr "two"; JStr "three"];
              JArr [JStr "four"; JStr "five"; JStr "six"]]).
Proof. reflexivity. Qed.

Example test_array_of_objects :
  marshal_array 3 empty_swagger_spec array_of_addresses_spec
    [address 1600 "Pennsylvania" "Avenue"; address 1700 "Main" "Street";
     address 1800 "Yelpy" "Boulevard"]
  = Ok (JArr [wire_address 1600 "Pennsylvania" "Avenue";
              wire_address 1700 "Main" "Street";
              wire_address 1800 "Yelpy" "Boulevard"]).
Proof. vm_compute. reflexivity. Qed.

Lemma marshal_round_trip_witness :
  valid 6 node_defs (DReference "Node") tree = true ∧
  ∃ w, marshal 6 node_defs (DReference "Node") tree = Ok w ∧
       unmarshal 6 node_defs (DReference "Node") w = Ok tree.
Proof.
  split; [vm_compute; reflexivity|].
  apply (marshal_round_trip 6); [vm_compute; reflexivity | lia].
Defined.

(** ** The claims on the example operations *)

Lemma path_level_declaration_wins_witness :
  ∃ p, self_params getPet_state !! "petId" = Some p ∧
       p = mkParam pet_spec petId_path_decl ∧
       location p = InPath ∧ default_value p = None ∧ required p = true.
Proof.
  apply (path_level_declaration_wins pet_spec "/pet/{petId}" "GET" getPet_spec
           blank_state (self getPet_state) getPet_state
           (mkPathSpec (Some [petId_path_decl]))
           petId_query_decl petId_path_decl [] []).
  - vm_compute. reflexivity.
  - vm_compute. reflexivity.
  - simpl. left.
  - reflexivity.
  - simpl. apply not_elem_of_nil.
  - reflexivity.
Defined.

Lemma operation_level_declaration_replaced :
  ∃ op st',
    from_spec pet_spec "/pet/{petId}" "GET" getPet_spec blank_state = (Ok op, st') ∧
    parameters getPet_spec = Some [petId_query_decl] ∧
    pet_paths !! "/pet/{petId}" = Some (mkPathSpec (Some [petId_path_decl])) ∧
    ps_name petId_query_decl = ps_name petId_path_decl ∧
    self_params st' !! ps_name petId_query_decl
      ≠ Some (mkParam pet_spec petId_query_decl) ∧
    location <$> self_params st' !! ps_name petId_query_decl = Some InPath ∧
    ps_in petId_query_decl = InQuery.
Proof.
  eexists _, _. split; [vm_compute; reflexivity|].
  split; [reflexivity|]. split; [vm_compute; reflexivity|]. split; [reflexivity|].
  split; [|split; [vm_compute; reflexivity|reflexivity]].
  vm_compute. intros [=].
Qed.

Lemma response_spec_selection_witness :
  response_future swagger_type_name post_receive_scalar spark_response ∅ createPet_state
    = receive swagger_type_name post_receive_scalar
        (Some (mkResponseSpec (Some string_schema))) spark_response ∅ createPet_state ∧
  response_future swagger_type_name post_receive_scalar not_found_response ∅ findPets_state
    = receive swagger_type_name post_receive_scalar
        (Some (mkResponseSpec None)) not_found_response ∅ findPets_state ∧
  response_future swagger_type_name post_receive_scalar ok_response ∅ deletePet_state
    = receive swagger_type_name post_receive_scalar None ok_response ∅
        (warned deletePet_state) ∧
  response_future swagger_type_name post_receive_scalar server_error_response ∅
      deletePet_state
    = (Raise (SwaggerError
                "Response doesn't match any expected responses: <Response [500]>"),
       deletePet_state).
Proof.
  split; [|split; [|split]].
  - refine (proj1 (response_spec_selection swagger_type_name post_receive_scalar
                     spark_response ∅ createPet_state _ _ _) _ _);
      [discriminate | reflexivity | vm_compute; reflexivity].
  - refine (proj1 (proj2 (response_spec_selection swagger_type_name post_receive_scalar
                     not_found_response ∅ findPets_state _ _ _)) _ _ _);
      [discriminate | reflexivity | vm_compute; reflexivity | vm_compute; reflexivity].
  - refine (proj1 (proj1 (proj2 (proj2 (response_spec_selection swagger_type_name
                     post_receive_scalar ok_response ∅ deletePet_state _ _ _))) _ _ _));
      [discriminate | reflexivity | vm_compute; reflexivity | vm_compute; reflexivity
       | reflexivity].
  - refine (proj2 (proj2 (proj2 (response_spec_selection swagger_type_name
                     post_receive_scalar server_error_response ∅ deletePet_state _ _ _)))
                  _ _ _);
      [discriminate | reflexivity | vm_compute; reflexivity | vm_compute; reflexivity
       | discriminate].
Defined.

Lemma failed_call_never_reaches_transport_witness :
  (∃ e st',
     __call__ gmap_order encode_as_query swagger_type_name post_receive_scalar
              ∅ createPet_state = (Raise e, st') ∧
     transport st' = transport createPet_state) ∧
  (∃ e st',
     __call__ gmap_order encode_as_query swagger_type_name post_receive_scalar
              {["doesNotExist" := VStr "asdf"]} findPets_state = (Raise e, st') ∧
     transport st' = transport findPets_state).
Proof.
  split.
  - apply (proj2 (proj2 (proj2 (failed_call_never_reaches_transport gmap_order
             encode_as_query swagger_type_name post_receive_scalar
             ∅ createPet_state))) "name" (mkParam pet_spec name_decl));
      [vm_compute; reflexivity | reflexivity | reflexivity].
  - apply (proj1 (proj2 (proj2 (failed_call_never_reaches_transport gmap_order
             encode_as_query swagger_type_name post_receive_scalar
             {["doesNotExist" := VStr "asdf"]} findPets_state)))
             "doesNotExist" (VStr "asdf"));
      [reflexivity | discriminate | vm_compute; reflexivity].
Defined.

Lemma empty_body_no_result_witness :
  ∃ f st1,
    __call__ gmap_order encode_as_query swagger_type_name post_receive_scalar
             {["petId" := VInt 1234]} deletePet_state = (Ok f, st1) ∧
    result f no_content_response st1 = (Ok VNone, st1).
Proof.
  assert (raises (__call__ gmap_order encode_as_query swagger_type_name
                           post_receive_scalar {["petId" := VInt 1234]}
                           deletePet_state).1 = false) as Hok
    by (vm_compute; reflexivity).
  destruct (__call__ gmap_order encode_as_query swagger_type_name post_receive_scalar
                     {["petId" := VInt 1234]} deletePet_state)
    as [[f|e] st1] eqn:Hcall; [|discriminate Hok].
  exists f, st1. split; [reflexivity|].
  exact (proj1 (empty_body_no_result gmap_order encode_as_query swagger_type_name
                  post_receive_scalar {["petId" := VInt 1234]} deletePet_state f st1
                  no_content_response ∅ st1 Hcall eq_refl)).
Defined.



Lemma missing_required_raises_witness :
  ∃ e st',
    construct_params gmap_order encode_as_query
      (fresh_request (self createPet_state) (VDict ∅))
      {["birthday" := VDate 2014 1 2]} createPet_state = (Raise e, st').
Proof.
  destruct (missing_required_raises gmap_order encode_as_query
              (fresh_request (self createPet_state) (VDict ∅))
              {["birthday" := VDate 2014 1 2]} createPet_state
              "name" (mkParam pet_spec name_decl))
    as (e & st' & Hrun & _).
  - intros k v [<- <-]%lookup_singleton_Some. vm_compute. by eexists.
  - vm_compute. reflexivity.
  - reflexivity.
  - reflexivity.
  - by exists e, st'.
Defined.

Lemma missing_argument_error_omits_operation_id :
  ∃ st',
    construct_params gmap_order encode_as_query
      (fresh_request (self deletePet_state) (VDict ∅)) ∅ deletePet_state
      = (Raise (TypeError "petId is a required parameter"), st') ∧
    (operation_id deletePet_state).1 = Ok "deletePet" ∧
    contains "deletePet" "petId is a required parameter" = false.
Proof.
  eexists. split; [vm_compute; reflexivity|]. split; reflexivity.
Qed.

Lemma default_is_encoded_witness :
  ∃ request' st',
    construct_params gmap_order encode_as_query
      (fresh_request (self findPets_state) (VDict ∅)) ∅ findPets_state
      = (Ok request', st') ∧
    request' !! "params" = Some (VDict {["limit" := VInt 10]}) ∧
    ∃ r0 r1,
      encode_as_query (mkParam pet_spec limit_decl) (VInt 10) r0 = Ok r1.
Proof.
  assert (match (construct_params gmap_order encode_as_query
                   (fresh_request (self findPets_state) (VDict ∅)) ∅
                   findPets_state).1 with
          | Ok request' => request' !! "params"
          | Raise _ => None
          end = Some (VDict {["limit" := VInt 10]})) as Hparams
    by (vm_compute; reflexivity).
  destruct (construct_params gmap_order encode_as_query
              (fresh_request (self findPets_state) (VDict ∅)) ∅ findPets_state)
    as [[request'|e] st'] eqn:Hrun; [|discriminate Hparams].
  exists request', st'. split; [reflexivity|]. split; [exact Hparams|].
  destruct (default_is_encoded gmap_order encode_as_query
              (fresh_request (self findPets_state) (VDict ∅)) ∅ findPets_state
              request' st' "limit" (mkParam pet_spec limit_decl) (VInt 10) Hrun)
    as (_ & table1 & request1 & before & after & r0 & r1 & _ & _ & _ & Henc & _).
  - vm_compute. reflexivity.
  - reflexivity.
  - reflexivity.
  - by exists r0, r1.
Defined.

(** The id of an operation without [operationId] is derived from the
    method and the path. *)
Example operation_id_derived :
  (operation_id getPet_state).1 = Ok "GET_pet_petId".
Proof. reflexivity. Qed.

(** [test_headers] *)
Example request_options_headers :
  (construct_request gmap_order encode_as_query
     {["_request_options" := VDict {["headers" := VDict {["foo" := VStr "bar"]}]}]}
     findPets_state).1
  = Ok (<["params" := VDict {["limit" := VInt 10]}]>
          (fresh_request (self findPets_state) (VDict {["foo" := VStr "bar"]}))).
Proof. vm_compute. reflexivity. Qed.

(** [_request_options=None]: the lookup of [get] fails before any
    argument is looked at. *)
Example request_options_none :
  (construct_request gmap_order encode_as_query
     {["_request_options" := VNone; "doesNotExist" := VStr "asdf"]} findPets_state).1
  = Raise (AttributeError VNone "get") ∧
  attribute_error_message VNone "get"
  = Some "'NoneType' object has no attribute 'get'".
Proof. split; vm_compute; reflexivity. Qed.

(** * Further properties of the operation *)

(** ** Strings *)

Lemma char_in_app c a b : char_in c (a +:+ b) = char_in c a || char_in c b.
Proof.
  induction a as [|x a IH]; [done|].
  change (String x a +:+ b) with (String x (a +:+ b)).
  cbn [char_in]. by rewrite IH, orb_assoc.
Qed.

Lemma char_in_drop c n s : char_in c s = false → char_in c (drop_chars n s) = false.
Proof.
  revert s. induction n as [|n IH]; intros s; [done|].
  destruct s as [|x s]; [done|]. cbn [drop_chars char_in].
  intros [_ Hs]%orb_false_iff. by apply IH.
Qed.

(** A replacement brings in no character that is neither in the string
    nor in the replacement text. *)
Lemma replace_from_keeps_out c fuel old new s :
  char_in c new = false → char_in c s = false →
  char_in c (replace_from fuel old new s) = false.
Proof.
  intros Hnew. revert s. induction fuel as [|fuel IH]; intros s Hs; [done|].
  cbn [replace_from]. destruct (String.prefix old s).
  - rewrite char_in_app, Hnew. cbn [orb]. by apply IH, char_in_drop.
  - destruct s as [|x s]; [done|]. cbn [char_in] in Hs |- *.
    apply orb_false_iff in Hs as [-> Hs]. by apply IH.
Qed.

Lemma replace_keeps_out c old new s :
  char_in c new = false → char_in c s = false →
  char_in c (replace old new s) = false.
Proof. apply replace_from_keeps_out. Qed.

Lemma prefix_empty s : String.prefix "" s = true.
Proof. by destruct s. Qed.

(** Replacing a character removes every occurrence of it. *)
Lemma replace_from_removes c fuel new s :
  char_in c new = false → (String.length s < fuel)%nat →
  char_in c (replace_from fuel (String c "") new s) = false.
Proof.
  intros Hnew. revert s. induction fuel as [|fuel IH]; intros s Hlen; [lia|].
  cbn [replace_from]. destruct s as [|x s]; [done|].
  cbn [String.length] in Hlen. cbn [String.prefix].
  destruct (Ascii.ascii_dec c x) as [->|Hne].
  - rewrite prefix_empty. cbn [String.length drop_chars].
    rewrite char_in_app, Hnew. apply IH. lia.
  - cbn [char_in]. rewrite (proj2 (Ascii.eqb_neq x c)) by done.
    apply IH. lia.
Qed.

Lemma replace_removes c new s :
  char_in c new = false → char_in c (replace (String c "") new s) = false.
Proof. intros Hnew. apply replace_from_removes; [done|lia]. Qed.

Lemma char_in_rev_app c s acc :
  char_in c (String.rev_app s acc) = char_in c s || char_in c acc.
Proof.
  revert acc. induction s as [|x s IH]; intros acc; [done|].
  cbn [String.rev_app char_in]. rewrite IH. cbn [char_in].
  destruct (Ascii.eqb x c), (char_in c s), (char_in c acc); done.
Qed.

Lemma char_in_rev c s : char_in c (String.rev s) = char_in c s.
Proof. unfold String.rev. rewrite char_in_rev_app. cbn [char_in]. apply orb_false_r. Qed.

Lemma char_in_lstrip c chars s :
  char_in c s = false → char_in c (lstrip chars s) = false.
Proof.
  induction s as [|x s IH]; [done|]. cbn [lstrip].
  destruct (char_in x chars); [|done].
  cbn [char_in]. intros [_ Hs]%orb_false_iff. by apply IH.
Qed.

Lemma strip_keeps_out c chars s :
  char_in c s = false → char_in c (strip chars s) = false.
Proof.
  intros Hs. unfold strip. rewrite char_in_rev. apply char_in_lstrip.
  rewrite char_in_rev. by apply char_in_lstrip.
Qed.

Lemma first_char_lstrip chars s x :
  first_char (lstrip chars s) = Some x → char_in x chars = false.
Proof.
  induction s as [|y s IH]; [done|]. cbn [lstrip].
  destruct (char_in y chars) eqn:Hy; [done|]. by intros [= <-].
Qed.

Lemma last_char_lstrip chars s x :
  last_char (lstrip chars s) = Some x → last_char s = Some x.
Proof.
  induction s as [|y s IH]; [done|]. cbn [lstrip].
  destruct (char_in y chars); [|done].
  intros Hx. specialize (IH Hx). cbn [last_char]. by destruct s.
Qed.

Lemma last_char_is_Some y s : is_Some (last_char (String y s)).
Proof.
  revert y. induction s as [|z s IH]; intros y; [by eexists|].
  change (last_char (String y (String z s))) with (last_char (String z s)). apply IH.
Qed.

Lemma first_char_rev_app s acc :
  first_char (String.rev_app s acc) =
    match last_char s with Some c => Some c | None => first_char acc end.
Proof.
  revert acc. induction s as [|x s IH]; intros acc; [done|].
  cbn [String.rev_app]. rewrite IH. destruct s as [|y s]; [done|].
  change (last_char (String x (String y s))) with (last_char (String y s)).
  by destruct (last_char_is_Some y s) as [c ->].
Qed.

Lemma last_char_rev_app s acc :
  last_char (String.rev_app s acc) =
    match last_char acc with Some c => Some c | None => first_char s end.
Proof.
  revert acc. induction s as [|x s IH]; intros acc.
  - cbn [String.rev_app first_char]. by destruct (last_char acc).
  - cbn [String.rev_app]. rewrite IH. destruct acc as [|y acc]; [done|].
    change (last_char (String x (String y acc))) with (last_char (String y acc)).
    by destruct (last_char_is_Some y acc) as [c ->].
Qed.

(** What [strip] returns neither begins nor ends with a stripped
    character. *)
Lemma strip_ends chars s x :
  first_char (strip chars s) = Some x ∨ last_char (strip chars s) = Some x →
  char_in x chars = false.
Proof.
  unfold strip, String.rev at 1 3. rewrite first_char_rev_app, last_char_rev_app.
  cbn [first_char last_char]. intros [Hx|Hx].
  - destruct (last_char (lstrip chars (String.rev (lstrip chars s)))) as [c|] eqn:E;
      [|done]. injection Hx as ->.
    apply last_char_lstrip in E. unfold String.rev in E.
    rewrite last_char_rev_app in E. cbn [last_char] in E.
    by apply first_char_lstrip in E.
  - by apply first_char_lstrip in Hx.
Qed.

(** ** The operation id *)

(** X1.  Reading [operation_id] always returns: the id is the cached one
    if there is one, else the spec's [operationId], else the one derived
    from method and path.  The first read stores it in [_operation_id];
    from then on a read returns the same id and changes nothing.
    [__repr__] returns [Operation(<id>)] and has the same effect on the
    object as a read of the id. *)
Theorem operation_id_read_once st :
  (operation_id st).1 = Ok (operation_id_of (self st)) ∧
  _operation_id (self (operation_id st).2) = Some (operation_id_of (self st)) ∧
  operation_id (operation_id st).2
    = (Ok (operation_id_of (self st)), (operation_id st).2) ∧
  __repr__ (operation_id st).2
    = (Ok ("Operation(" +:+ operation_id_of (self st) +:+ ")"), (operation_id st).2) ∧
  (__repr__ st).2 = (operation_id st).2.
Proof.
  assert (∀ s, _operation_id (self s) = Some (operation_id_of (self s)) →
               operation_id s = (Ok (operation_id_of (self s)), s)) as Hfix.
  { intros s Hs. rewrite operation_id_run. f_equal.
    destruct s as [[sp pn hm os oid pa] hp lg tr]. cbn in *. by rewrite Hs. }
  assert ((__repr__ st).2 = (operation_id st).2) as Hrepr.
  { unfold __repr__, bind. by destruct (operation_id st) as [[i|e] s]. }
  rewrite Hrepr. clear Hrepr. rewrite (operation_id_run st). cbn [fst snd].
  set (st1 := mkState _ _ _ _).
  assert (operation_id st1 = (Ok (operation_id_of (self st)), st1)) as Hst1
    by (by apply (Hfix st1)).
  split; [done|]. split; [done|]. split; [done|]. split; [|done].
  unfold __repr__, bind. by rewrite Hst1.
Qed.

(** X2.  An id derived from method and path (no cached id, no
    [operationId] in the spec) contains none of the characters [/], [{]
    and [}], and neither begins nor ends with an underscore. *)
Theorem derived_operation_id_shape op :
  _operation_id op = None → operationId (op_spec op) = None →
  char_in "/" (operation_id_of op) = false ∧
  char_in "{" (operation_id_of op) = false ∧
  char_in "}" (operation_id_of op) = false ∧
  first_char (operation_id_of op) ≠ Some "_"%char ∧
  last_char (operation_id_of op) ≠ Some "_"%char.
Proof.
  intros Hc Ho. unfold operation_id_of. rewrite Hc, Ho.
  set (s0 := http_method op +:+ "_" +:+ path_name op).
  split; [|split; [|split; [|split]]].
  - apply strip_keeps_out. do 3 (apply replace_keeps_out; [done|]).
    by apply replace_removes.
  - apply strip_keeps_out. do 2 (apply replace_keeps_out; [done|]).
    by apply replace_removes.
  - apply strip_keeps_out. apply replace_keeps_out; [done|].
    by apply replace_removes.
  - intros Hx. by pose proof (strip_ends "_" _ "_"%char (or_introl Hx)).
  - intros Hx. by pose proof (strip_ends "_" _ "_"%char (or_intror Hx)).
Qed.

Lemma derived_operation_id_shape_witness :
  char_in "/" (operation_id_of (self getPet_state)) = false ∧
  char_in "{" (operation_id_of (self getPet_state)) = false ∧
  char_in "}" (operation_id_of (self getPet_state)) = false ∧
  first_char (operation_id_of (self getPet_state)) ≠ Some "_"%char ∧
  last_char (operation_id_of (self getPet_state)) ≠ Some "_"%char.
Proof.
  apply derived_operation_id_shape; vm_compute; reflexivity.
Defined.

(** ** [build_params] and [from_spec] *)

Lemma build_params_loop_frame param_specs st b :
  b ≠ params (self st) →
  deref (build_params_loop param_specs st).2 b = deref st b.
Proof.
  revert st. induction param_specs as [|ps l IH]; intros st Hb; [done|].
  cbn [build_params_loop]. unfold bind at 1, get_self, bind at 1, dict_setitem.
  rewrite IH by done. by apply deref_insert_ne.
Qed.

Lemma build_params_unfold st :
  build_params st =
    match paths (spec_dict (swagger_spec (self st))) !! path_name (self st) with
    | Some ps =>
        build_params_loop
          (default [] (parameters (op_spec (self st))) ++
           default [] (path_parameters ps)) (build_params_entry st)
    | None => (Raise (KeyError (path_name (self st))), build_params_entry st)
    end.
Proof.
  unfold build_params, bind at 1, new_dict.
  unfold bind at 1, modify_self. cbn [self heap log transport].
  unfold bind at 1, get_self. cbn [self].
  unfold bind at 1, subscript. cbn [swagger_spec path_name set_params op_spec].
  by destruct (paths (spec_dict (swagger_spec (self st))) !! path_name (self st)).
Qed.

(** What [build_params] does to the store: the table is a new dictionary
    object, and the dictionaries that were there are as they were. *)
Lemma build_params_frame st :
  (params (self (build_params st).2) ∉ dom (heap st) ∪ {[params (self st)]}) ∧
  (∀ b, b ∈ dom (heap st) ∪ {[params (self st)]} →
        deref (build_params st).2 b = deref st b) ∧
  log (build_params st).2 = log st ∧ transport (build_params st).2 = transport st.
Proof.
  rewrite build_params_unfold.
  set (a := fresh (dom (heap st) ∪ {[params (self st)]})).
  assert (a ∉ dom (heap st) ∪ {[params (self st)]}) as Hfresh by apply is_fresh.
  assert (∀ b, b ∈ dom (heap st) ∪ {[params (self st)]} →
               deref (build_params_entry st) b = deref st b) as Hentry.
  { intros b Hb. apply deref_insert_ne. by intros ->. }
  destruct (paths (spec_dict (swagger_spec (self st))) !! path_name (self st))
    as [ps|]; [|done].
  match goal with |- context [build_params_loop ?l _] => set (specs := l) end.
  destruct (build_params_loop_run specs (build_params_entry st))
    as (st' & Hrun & Hs & _ & Hl & Ht).
  pose proof (build_params_loop_frame specs (build_params_entry st)) as Hframe.
  rewrite Hrun in Hframe |- *. cbn [snd] in *. rewrite Hs, Hl, Ht.
  split; [exact Hfresh|]. split; [|done].
  intros b Hb. rewrite Hframe; [by apply Hentry|]. by intros ->.
Qed.

Lemma declared_table_lookup sp param_specs table n p :
  declared_table sp param_specs table !! n = Some p →
  ((n ∉ ps_name <$> param_specs) ∧ table !! n = Some p) ∨
  (∃ d, d ∈ param_specs ∧ ps_name d = n ∧ p = mkParam sp d).
Proof.
  revert table. induction param_specs as [|d l IH]; intros table;
    cbn [declared_table foldl].
  - intros Hp. left. split; [apply not_elem_of_nil|done].
  - intros Hp. destruct (IH _ Hp) as [[Hn Hins]|(d' & Hd' & Hname & ->)].
    + destruct (decide (ps_name d = n)) as [<-|Hne].
      * rewrite lookup_insert_eq in Hins. injection Hins as <-.
        right. exists d. split; [left|done].
      * rewrite lookup_insert_ne in Hins by done. left. split; [|done].
        rewrite fmap_cons. apply not_elem_of_cons. by split.
    + right. exists d'. split; [by right|done].
Qed.

Lemma declared_table_dom sp param_specs table :
  dom (declared_table sp param_specs table) =
    dom table ∪ list_to_set (ps_name <$> param_specs).
Proof.
  revert table. induction param_specs as [|d l IH]; intros table;
    cbn [declared_table foldl].
  - cbn. set_solver.
  - fold (declared_table sp l (<[ps_name d := mkParam sp d]> table)).
    rewrite IH, dom_insert_L, fmap_cons. cbn [list_to_set]. set_solver.
Qed.

Lemma from_spec_missing sp pn hm os st :
  paths (spec_dict sp) !! pn = None →
  ∃ st', from_spec sp pn hm os st = (Raise (KeyError pn), st') ∧
         self_params st' = ∅ ∧ path_name (self st') = pn ∧
         transport st' = transport st.
Proof.
  intros Hps. unfold from_spec.
  set (st1 := (init sp pn hm os st).2).
  unfold bind at 1. change (init sp pn hm os st) with ((Ok (), st1) : Result () * State).
  unfold bind. rewrite build_params_unfold.
  change (swagger_spec (self st1)) with sp. change (path_name (self st1)) with pn.
  rewrite Hps. eexists. split; [done|]. split; [apply deref_insert_eq|done].
Qed.

(** X3.  [from_spec] raises [KeyError] for a path that is not among the
    spec's [paths]; the object is then left with an empty table and
    nothing is sent.  Otherwise it returns an operation with the four
    given fields and no cached id, whose table has exactly the names
    declared by the operation and by its path. *)
Theorem from_spec_outcome sp pn hm os st :
  match paths (spec_dict sp) !! pn with
  | None =>
      ∃ st', from_spec sp pn hm os st = (Raise (KeyError pn), st') ∧
             self_params st' = ∅ ∧ transport st' = transport st
  | Some ps =>
      ∃ op st', from_spec sp pn hm os st = (Ok op, st') ∧ self st' = op ∧
                swagger_spec op = sp ∧ path_name op = pn ∧ http_method op = hm ∧
                op_spec op = os ∧ _operation_id op = None ∧
                dom (self_params st') =
                  list_to_set (ps_name <$> (default [] (parameters os) ++
                                            default [] (path_parameters ps)))
  end.
Proof.
  destruct (paths (spec_dict sp) !! pn) as [ps|] eqn:Hps.
  - destruct (from_spec_run sp pn hm os st ps Hps)
      as (op & st' & Hrun & Hs & Hsp & Hpn & Hhm & Hos & Hid & Htab).
    exists op, st'. repeat (split; [done|]).
    rewrite Htab, declared_table_dom, dom_empty_L. set_solver.
  - destruct (from_spec_missing sp pn hm os st Hps) as (st' & Hrun & Hemp & _ & Ht).
    by exists st'.
Qed.

(** X4.  Each entry of the table built by [from_spec] is filed under the
    name of its own declaration: the Param carries the spec given to
    [from_spec], and its declaration is one of the operation's or of the
    path's. *)
Theorem declared_params_named sp pn hm os st op st' n p :
  from_spec sp pn hm os st = (Ok op, st') →
  self_params st' !! n = Some p →
  name p = n ∧ param_swagger_spec p = sp ∧
  ∃ ps, paths (spec_dict sp) !! pn = Some ps ∧
        param_spec p ∈ default [] (parameters os) ++ default [] (path_parameters ps).
Proof.
  intros Hfrom Hp. destruct (paths (spec_dict sp) !! pn) as [ps|] eqn:Hps.
  - destruct (from_spec_run sp pn hm os st ps Hps) as (op' & st2 & Hrun & _ & Htab).
    rewrite Hrun in Hfrom. injection Hfrom as -> ->.
    destruct Htab as (_ & _ & _ & _ & _ & Htab). rewrite Htab in Hp.
    apply declared_table_lookup in Hp as [[_ Hp]|(d & Hd & <- & ->)]; [done|].
    split; [done|]. split; [done|]. by exists ps.
  - destruct (from_spec_missing sp pn hm os st Hps) as (st2 & Hrun & _).
    by rewrite Hrun in Hfrom.
Qed.

(** X5.  [build_params] can be run again: on an operation whose path is
    in the spec a second run gives a table of the same content in a new
    dictionary, and the dictionary the object held before a run is left
    as it was. *)
Theorem build_params_rebuilds st ps :
  paths (spec_dict (swagger_spec (self st))) !! path_name (self st) = Some ps →
  self_params (build_params (build_params st).2).2 = self_params (build_params st).2 ∧
  params (self (build_params (build_params st).2).2) ≠ params (self (build_params st).2) ∧
  deref (build_params (build_params st).2).2 (params (self (build_params st).2))
    = self_params (build_params st).2 ∧
  deref (build_params st).2 (params (self st)) = self_params st.
Proof.
  intros Hps.
  destruct (build_params_run st ps Hps) as (st1 & Hrun & [a Hs] & Htab & _).
  destruct (build_params_frame st) as (_ & Hold & _).
  rewrite Hrun in Hold |- *. cbn [snd] in *.
  assert (paths (spec_dict (swagger_spec (self st1))) !! path_name (self st1) = Some ps)
    as Hps1 by (by rewrite Hs).
  destruct (build_params_run st1 ps Hps1) as (st2 & Hrun2 & _ & Htab2 & _).
  destruct (build_params_frame st1) as (Hfresh & Hold1 & _).
  rewrite Hrun2 in Hfresh, Hold1 |- *. cbn [snd] in *.
  split; [|split; [|split]].
  - rewrite Htab2, Htab. by rewrite Hs.
  - intros Heq. apply Hfresh. rewrite Heq. set_solver.
  - apply Hold1. set_solver.
  - apply Hold. set_solver.
Qed.

(** X6.  An operation-level declaration whose name is declared neither
    later in the operation's list nor by the path is the entry of the
    table under its name. *)
Theorem operation_level_declaration_kept sp pn hm os st op st' ps
    op_decl before after :
  from_spec sp pn hm os st = (Ok op, st') →
  paths (spec_dict sp) !! pn = Some ps →
  default [] (parameters os) = before ++ op_decl :: after →
  ps_name op_decl ∉ ps_name <$> after →
  ps_name op_decl ∉ ps_name <$> default [] (path_parameters ps) →
  self_params st' !! ps_name op_decl = Some (mkParam sp op_decl).
Proof.
  intros Hfrom Hps Hop Hlast Hpath.
  destruct (from_spec_run sp pn hm os st ps Hps) as (op' & st2 & Hrun & _ & Htab).
  rewrite Hrun in Hfrom. injection Hfrom as -> ->.
  destruct Htab as (_ & _ & _ & _ & _ & ->).
  rewrite Hop, <- app_assoc. cbn [app]. apply declared_table_last.
  rewrite fmap_app. by apply not_elem_of_app.
Qed.

(** ** [construct_params], [construct_request] and [__call__] *)

Section MoreClaims.
Context (order : DictOrder).
Context (encode_param : Param → Value → Request → outcome string Request).
Context (get_swagger_type : Defn → outcome string string).
Context (post_receive : Json → option string → gmap string Defn →
                        gmap string Value → outcome string Value).

(** A successful first pass, cut at one of its arguments. *)
Lemma supplied_pass_split before n v after table request result :
  supplied_pass encode_param (before ++ (n, v) :: after) table request = Ok result →
  ∃ table0 r0 p r1,
    supplied_pass encode_param before table request = Ok (table0, r0) ∧
    table0 !! n = Some p ∧
    marshal_param encode_param p v r0 = Ok r1 ∧
    supplied_pass encode_param after (delete n table0) r1 = Ok result.
Proof.
  revert table request. induction before as [|[m w] before IH]; intros table request;
    cbn [app supplied_pass].
  - destruct (table !! n) as [p|] eqn:Hp; [|done].
    destruct (marshal_param encode_param p v request) as [r1|] eqn:Hm; [|done].
    intros Hrest. by exists table, request, p, r1.
  - destruct (table !! m) as [q|]; [|done].
    destruct (marshal_param encode_param q w request); [apply IH|done].
Qed.

(** X8.  In a [construct_params] that returns, every supplied argument
    is declared and was marshalled with its own Param: the walk over the
    arguments splits at the argument, [marshal_param] takes the request
    built before it to the request the rest of the walk starts from, and
    the second loop finishes the request. *)
Theorem supplied_is_encoded request op_kwargs st request' st' n v :
  construct_params order encode_param request op_kwargs st = (Ok request', st') →
  op_kwargs !! n = Some v →
  ∃ p before after table0 r0 r1 table1 request1,
    self_params st !! n = Some p ∧
    items order op_kwargs = before ++ (n, v) :: after ∧
    supplied_pass encode_param before (self_params st) request = Ok (table0, r0) ∧
    marshal_param encode_param p v r0 = Ok r1 ∧
    supplied_pass encode_param after (delete n table0) r1 = Ok (table1, request1) ∧
    remaining_pass encode_param (values order table1) request1 = Ok request'.
Proof.
  intros Hok Hv.
  destruct (construct_params_run encode_param order request op_kwargs st)
    as (st2 & Hrun & _ & _).
  rewrite Hrun in Hok. injection Hok as Hout _. clear Hrun st2.
  unfold construct_params_outcome in Hout.
  destruct (supplied_pass encode_param (items order op_kwargs) (self_params st) request)
    as [[table1 request1]|e] eqn:Hpass; [|done].
  destruct (remaining_pass encode_param (values order table1) request1)
    as [r|e] eqn:Hrem; [|done]. injection Hout as ->.
  apply (elem_of_items order) in Hv.
  apply list_elem_of_split in Hv as (before & after & Hsplit).
  rewrite Hsplit in Hpass.
  destruct (supplied_pass_split _ _ _ _ _ _ _ Hpass) as (table0 & r0 & p & r1 & H0 & Hp & Hm & H1).
  exists p, before, after, table0, r0, r1, table1, request1.
  split; [|done].
  assert (NoDup before.*1) as Hnd.
  { pose proof (NoDup_items_keys order op_kwargs) as Hnd.
    rewrite Hsplit, fmap_app in Hnd. by apply NoDup_app in Hnd as [Hnd _]. }
  pose proof (supplied_pass_spec encode_param before (self_params st) request Hnd) as Hs.
  rewrite H0 in Hs. destruct Hs as [_ Hlook]. rewrite Hlook in Hp.
  by case_decide.
Qed.

(** X7.  With an encoder that never fails and without
    [_request_options], a call returns a future exactly when every
    supplied name is declared and every required parameter is supplied.
    The future then holds the http client of the spec, and its request
    is the one entry the call adds to the transport. *)
Theorem valid_call_is_handed_over kwargs st :
  (∀ p v r, ∃ r', encode_param p v r = Ok r') →
  kwargs !! "_request_options" = None →
  ((∀ n v, kwargs !! n = Some v → is_Some (self_params st !! n)) →
   (∀ n p, self_params st !! n = Some p → required p = true → is_Some (kwargs !! n)) →
   ∃ f st',
     __call__ order encode_param get_swagger_type post_receive kwargs st = (Ok f, st') ∧
     future_http_client f = http_client (swagger_spec (self st)) ∧
     transport st' = transport st ++ [(future_http_client f, future_request f)]) ∧
  (∀ f st',
     __call__ order encode_param get_swagger_type post_receive kwargs st = (Ok f, st') →
     (∀ n v, kwargs !! n = Some v → is_Some (self_params st !! n)) ∧
     (∀ n p, self_params st !! n = Some p → required p = true → is_Some (kwargs !! n))).
Proof.
  intros Htot Hopt. rewrite call_unfold.
  destruct (construct_request_run order encode_param kwargs (call_entry kwargs st))
    as (st' & Hrun & [Hid _] & Htr).
  rewrite Hrun. change (self_params (call_entry kwargs st)) with (self_params st).
  unfold construct_request_outcome. rewrite Hopt. cbn [default].
  rewrite delete_id by done.
  match goal with |- context [construct_params_outcome _ _ ?i ?t ?r ?k] =>
    set (out := construct_params_outcome order encode_param i t r k);
    assert (construct_params_outcome order encode_param i t r k = out) as Hout by done
  end.
  split.
  - intros Hknown Hreq. destruct out as [request|e].
    + eexists _, _. split; [done|]. cbn [future_http_client future_request].
      destruct (id_cached_fields _ _ Hid) as (-> & _). split; [done|].
      cbn [transport]. by rewrite Htr.
    + exfalso.
      destruct (construct_params_outcome_raise _ _ _ _ _ _ _ Hout)
        as [(m & [w Hw] & Hm & _)|[(p & n & Hp & Hn & Hr & _ & _)|[msg ->]]].
      * destruct (Hknown _ _ Hw) as [q Hq]. congruence.
      * destruct (Hreq _ _ Hp Hr) as [w Hw]. congruence.
      * by apply total_outcome in Hout.
  - intros f st2 Hcall. destruct out as [request|e]; [|done]. split.
    + intros n v Hv. destruct (self_params st !! n) as [p|] eqn:Hn; [by eexists|].
      edestruct (construct_params_outcome_unknown order encode_param) as (e & He & _);
        [by eexists | exact Hn |]. by rewrite Hout in He.
    + intros n p Hp Hr. destruct (kwargs !! n) as [v|] eqn:Hv; [by eexists|].
      edestruct (construct_params_outcome_missing order encode_param) as (e & He);
        [exact Hp | exact Hv | exact Hr |]. by rewrite Hout in He.
Qed.

(** X9.  When every declared parameter that is not supplied is optional
    and has no default, the second loop of [construct_params] neither
    raises nor encodes: the outcome is that of the loop over the
    supplied arguments. *)
Theorem omitted_optional_adds_nothing request op_kwargs st :
  (∀ n p, self_params st !! n = Some p → op_kwargs !! n = None →
          required p = false ∧ default_value p = None) →
  (construct_params order encode_param request op_kwargs st).1 =
    to_result (supplied_exn (operation_id_of (self st)))
      (outcome_map snd
         (supplied_pass encode_param (items order op_kwargs) (self_params st) request)).
Proof.
  intros Hopt.
  destruct (construct_params_run encode_param order request op_kwargs st)
    as (st2 & -> & _ & _).
  cbn [fst]. unfold construct_params_outcome.
  pose proof (supplied_pass_spec encode_param (items order op_kwargs)
                (self_params st) request (NoDup_items_keys order op_kwargs)) as Hs.
  destruct (supplied_pass encode_param (items order op_kwargs) (self_params st) request)
    as [[table1 request1]|e]; [|done].
  destruct Hs as [_ Hlook]. cbn [outcome_map to_result snd].
  assert (Forall (λ p, required p = false ∧ default_value p = None)
                 (values order table1)) as Hall.
  { apply Forall_forall. intros p [n Hn]%elem_of_values.
    rewrite Hlook in Hn. case_decide as Hk; [done|].
    apply (Hopt n p Hn). apply eq_None_not_Some. by rewrite <- (elem_of_items_keys order). }
  induction Hall as [|p ps [Hr Hd] _ IH]; [done|].
  cbn [remaining_pass]. by rewrite Hr, Hd.
Qed.

Lemma supplied_log l a request st :
  log (construct_params_supplied encode_param l a request st).2 = log st.
Proof.
  revert request st. induction l as [|[n v] l IH]; intros request st; [done|].
  cbn [construct_params_supplied]. unfold bind at 1, dict_pop.
  destruct (deref st a !! n) as [p|].
  - unfold bind at 1, calling, ret, raise.
    destruct (marshal_param encode_param p v request); cbv beta iota; [|done].
    by rewrite IH.
  - unfold bind. by rewrite operation_id_run.
Qed.

Lemma construct_params_log request op_kwargs st :
  log (construct_params order encode_param request op_kwargs st).2 = log st.
Proof.
  unfold construct_params, bind at 1, get_self, bind at 1, dict_copy, new_dict.
  unfold bind at 1.
  match goal with |- context [construct_params_supplied _ ?l ?a ?r ?s] =>
    pose proof (supplied_log l a r s) as Hlog;
    destruct (construct_params_supplied encode_param l a r s) as [[r'|e] s'] end;
    [|done].
  unfold bind, dict_itervalues. by rewrite remaining_run.
Qed.

Lemma construct_request_log kwargs st :
  log (construct_request order encode_param kwargs st).2 = log st.
Proof.
  rewrite construct_request_unfold.
  destruct (default (VDict ∅) (kwargs !! "_request_options")); try done.
  apply construct_params_log.
Qed.

Lemma call_kept kwargs st :
  params_kept st (__call__ order encode_param get_swagger_type post_receive kwargs st).2.
Proof.
  rewrite call_unfold.
  destruct (construct_request_run order encode_param kwargs (call_entry kwargs st))
    as (st' & -> & Hk & _).
  eapply params_kept_trans; [apply call_entry_kept|].
  by destruct (construct_request_outcome _ _ _ _ _).
Qed.

(** X10.  Whether it returns or raises, [__call__] writes exactly one
    entry to the log, the debug line with the operation id and the
    arguments, and leaves the id cached. *)
Theorem call_is_logged_once kwargs st :
  log (__call__ order encode_param get_swagger_type post_receive kwargs st).2 =
    log st ++ [Debug_call (operation_id_of (self st)) kwargs] ∧
  _operation_id
    (self (__call__ order encode_param get_swagger_type post_receive kwargs st).2)
    = Some (operation_id_of (self st)).
Proof.
  rewrite call_unfold.
  pose proof (construct_request_log kwargs (call_entry kwargs st)) as Hlog.
  destruct (construct_request_run order encode_param kwargs (call_entry kwargs st))
    as (st' & Hrun & [Hid _] & _).
  rewrite Hrun in Hlog |- *. cbn [snd] in Hlog.
  assert (_operation_id (self st') = Some (operation_id_of (self st))) as Hcached
    by (by destruct Hid as [-> | ->]).
  by destruct (construct_request_outcome _ _ _ _ _).
Qed.

Lemma construct_request_outcome_cached op op' table kwargs :
  id_cached op op' →
  construct_request_outcome order encode_param op' table kwargs =
  construct_request_outcome order encode_param op table kwargs.
Proof. by intros [-> | ->]. Qed.

Lemma requests_alike st st' kwargs :
  params_kept st st' →
  (construct_request order encode_param kwargs st').1 =
    (construct_request order encode_param kwargs st).1 ∧
  outcome_map future_request
    (__call__ order encode_param get_swagger_type post_receive kwargs st').1 =
  outcome_map future_request
    (__call__ order encode_param get_swagger_type post_receive kwargs st).1.
Proof.
  intros [Hid Hpar].
  assert (∀ s, (construct_request order encode_param kwargs s).1 =
               construct_request_outcome order encode_param (self s) (self_params s)
                                         kwargs) as Hreq.
  { intros s. by destruct (construct_request_run order encode_param kwargs s)
      as (s' & -> & _). }
  split.
  - rewrite !Hreq, Hpar. by apply construct_request_outcome_cached.
  - rewrite !call_unfold.
    pose proof (Hreq (call_entry kwargs st')) as H1.
    pose proof (Hreq (call_entry kwargs st)) as H2.
    change (self_params (call_entry kwargs st')) with (self_params st') in H1.
    change (self_params (call_entry kwargs st)) with (self_params st) in H2.
    rewrite Hpar in H1.
    rewrite (construct_request_outcome_cached (self st)) in H1.
    2:{ eapply id_cached_trans; [exact Hid|]. by right. }
    rewrite (construct_request_outcome_cached (self st) (self (call_entry kwargs st)))
      in H2 by (by right).
    destruct (construct_request order encode_param kwargs (call_entry kwargs st'))
      as [[r1|e1] s1], (construct_request order encode_param kwargs (call_entry kwargs st))
      as [[r2|e2] s2]; cbn [fst snd outcome_map future_request] in *; congruence.
Qed.

(** X13.  Calls do not influence each other: the request a call builds,
    or the exception it raises, is the same after an earlier call, and
    after an earlier call whose response was resolved, as on the
    operation as it was. *)
Theorem calls_are_repeatable kwargs1 kwargs2 response rkwargs st :
  outcome_map future_request
    (__call__ order encode_param get_swagger_type post_receive kwargs2
       (__call__ order encode_param get_swagger_type post_receive kwargs1 st).2).1 =
  outcome_map future_request
    (__call__ order encode_param get_swagger_type post_receive kwargs2 st).1 ∧
  outcome_map future_request
    (__call__ order encode_param get_swagger_type post_receive kwargs2
       (response_future get_swagger_type post_receive response rkwargs st).2).1 =
  outcome_map future_request
    (__call__ order encode_param get_swagger_type post_receive kwargs2 st).1.
Proof.
  split.
  - apply requests_alike, call_kept.
  - apply requests_alike, response_future_kept.
Qed.

(** ** [response_future] *)

Lemma receive_raises response_spec response kwargs st e st' :
  receive get_swagger_type post_receive response_spec response kwargs st
    = (Raise e, st') →
  (∃ msg, e = Propagated In_response_json msg ∧ json response = Raise msg) ∨
  (∃ msg, e = Propagated In_get_swagger_type msg) ∨
  (∃ msg, e = Propagated In_post_receive msg).
Proof.
  unfold receive, bind, calling, ret, raise, write_log, get_self.
  repeat case_match; simplify_eq/=; intros; simplify_eq; eauto.
Qed.

(** X11.  When [response_future] raises, the response has a body and the
    exception is one of: [KeyError] for an operation spec without
    [responses]; [SwaggerError] with the response in its message, when
    the status is not 200 and the table has neither the status code nor
    [default]; an exception of [response.json], of [get_swagger_type] or
    of [post_receive]. *)
Theorem response_future_raises response kwargs st e st' :
  response_future get_swagger_type post_receive response kwargs st = (Raise e, st') →
  text response ≠ "" ∧
  ((e = KeyError "responses" ∧ responses (op_spec (self st)) = None) ∨
   (e = SwaggerError ("Response doesn't match any expected responses: "
                      +:+ response_str response) ∧
    status_code response ≠ 200 ∧
    ∃ tbl, responses (op_spec (self st)) = Some tbl ∧
           tbl !! pretty (status_code response) = None ∧ tbl !! "default" = None) ∨
   (∃ msg, e = Propagated In_response_json msg ∧ json response = Raise msg) ∨
   (∃ msg, e = Propagated In_get_swagger_type msg) ∨
   (∃ msg, e = Propagated In_post_receive msg)).
Proof.
  rewrite response_future_unfold. case_bool_decide as Htext; [done|].
  intros Hrun. split; [done|].
  destruct (responses (op_spec (self st))) as [tbl|]; [|injection Hrun as <- _; by left].
  destruct (tbl !! pretty (status_code response)) as [rs|] eqn:Hcode.
  { right; right. by eapply receive_raises. }
  destruct (tbl !! "default") as [rs|] eqn:Hdflt.
  { right; right. by eapply receive_raises. }
  case_bool_decide as H200.
  { right; right. by eapply receive_raises. }
  injection Hrun as <- _. right; left. split; [done|]. split; [|by exists tbl].
  by intros Heq; rewrite Heq in H200.
Qed.

(** X12.  For a response with a body that decodes and whose status code,
    or else [default], selects a response spec: the result is that of
    [post_receive] on the decoded body and the definitions of the spec,
    typed by [get_swagger_type] of the schema, or untyped when the
    response spec has no schema, and three debug lines are logged.  If
    [get_swagger_type] raises, its exception is raised and nothing is
    logged. *)
Theorem selected_schema_types_the_result response kwargs st tbl rs j :
  text response ≠ "" →
  responses (op_spec (self st)) = Some tbl →
  tbl !! pretty (status_code response) = Some rs ∨
    (tbl !! pretty (status_code response) = None ∧ tbl !! "default" = Some rs) →
  json response = Ok j →
  match rs_schema rs with
  | Some schema =>
      (∀ t, get_swagger_type schema = Ok t →
         response_future get_swagger_type post_receive response kwargs st =
           (to_result (Propagated In_post_receive)
              (post_receive j (Some t) (definitions (swagger_spec (self st))) kwargs),
            mkState (self st) (heap st)
                    (log st ++ [Debug_response_dict j; Debug_response_spec (Some rs);
                                Debug_swagger_type (Some t)])
                    (transport st))) ∧
      (∀ msg, get_swagger_type schema = Raise msg →
         response_future get_swagger_type post_receive response kwargs st =
           (Raise (Propagated In_get_swagger_type msg), st))
  | None =>
      response_future get_swagger_type post_receive response kwargs st =
        (to_result (Propagated In_post_receive)
           (post_receive j None (definitions (swagger_spec (self st))) kwargs),
         mkState (self st) (heap st)
                 (log st ++ [Debug_response_dict j; Debug_response_spec (Some rs);
                             Debug_swagger_type None])
                 (transport st))
  end.
Proof.
  intros Htext Htbl Hsel Hj. rewrite response_future_unfold.
  rewrite bool_decide_eq_false_2 by done. rewrite Htbl.
  assert (match tbl !! pretty (status_code response) with
          | Some rs0 => receive get_swagger_type post_receive (Some rs0) response kwargs st
          | None =>
              match tbl !! "default" with
              | Some rs0 =>
                  receive get_swagger_type post_receive (Some rs0) response kwargs st
              | None =>
                  if bool_decide (pretty (status_code response) = "200")
                  then receive get_swagger_type post_receive None response kwargs
                               (warned st)
                  else (Raise (SwaggerError
                                 ("Response doesn't match any expected responses: "
                                  +:+ response_str response)), st)
              end
          end = receive get_swagger_type post_receive (Some rs) response kwargs st) as ->.
  { by destruct Hsel as [-> | [-> ->]]. }
  unfold receive, bind at 1, calling. rewrite Hj. cbn [ret].
  destruct rs as [[schema|]]; cbn [rs_schema].
  - split.
    + intros t Ht. unfold bind at 1, bind at 1. rewrite Ht.
      unfold bind, ret, write_log, get_self. cbn [self heap log transport].
      rewrite <- !app_assoc. cbn [app].
      by destruct (post_receive _ _ _ _).
    + intros msg Hmsg. unfold bind at 1, bind at 1. by rewrite Hmsg.
  - unfold bind, ret, write_log, get_self. cbn [self heap log transport].
    rewrite <- !app_assoc. cbn [app].
    by destruct (post_receive _ _ _ _).
Qed.
End MoreClaims.

(** ** The further properties on the example operations *)

Lemma declared_params_named_witness :
  name (mkParam pet_spec petId_path_decl) = "petId" ∧
  param_swagger_spec (mkParam pet_spec petId_path_decl) = pet_spec ∧
  ∃ ps, paths (spec_dict pet_spec) !! "/pet/{petId}" = Some ps ∧
        param_spec (mkParam pet_spec petId_path_decl)
          ∈ default [] (parameters getPet_spec) ++ default [] (path_parameters ps).
Proof.
  apply (declared_params_named pet_spec "/pet/{petId}" "GET" getPet_spec blank_state
           (self getPet_state) getPet_state "petId" (mkParam pet_spec petId_path_decl)).
  - vm_compute. reflexivity.
  - vm_compute. reflexivity.
Defined.

Lemma build_params_rebuilds_witness :
  self_params (build_params (build_params getPet_state).2).2
    = self_params (build_params getPet_state).2 ∧
  params (self (build_params (build_params getPet_state).2).2)
    ≠ params (self (build_params getPet_state).2) ∧
  deref (build_params (build_params getPet_state).2).2
        (params (self (build_params getPet_state).2))
    = self_params (build_params getPet_state).2 ∧
  deref (build_params getPet_state).2 (params (self getPet_state))
    = self_params getPet_state.
Proof.
  apply (build_params_rebuilds getPet_state (mkPathSpec (Some [petId_path_decl]))).
  vm_compute. reflexivity.
Defined.

Lemma operation_level_declaration_kept_witness :
  self_params createPet_state !! "name" = Some (mkParam pet_spec name_decl).
Proof.
  apply (operation_level_declaration_kept pet_spec "/pet" "POST" createPet_spec
           blank_state (self createPet_state) createPet_state (mkPathSpec None)
           name_decl [] [birthday_decl]).
  - vm_compute. reflexivity.
  - vm_compute. reflexivity.
  - reflexivity.
  - simpl. intros [=]%list_elem_of_singleton.
  - simpl. apply not_elem_of_nil.
Defined.

Lemma supplied_is_encoded_witness :
  ∃ p r0 r1,
    self_params createPet_state !! "name" = Some p ∧
    marshal_param encode_as_query p (VStr "Sparky") r0 = Ok r1.
Proof.
  assert (raises (construct_params gmap_order encode_as_query
                    (fresh_request (self createPet_state) (VDict ∅))
                    {["name" := VStr "Sparky"]} createPet_state).1 = false) as Hok
    by (vm_compute; reflexivity).
  assert (({["name" := VStr "Sparky"]} : gmap string Value) !! "name"
          = Some (VStr "Sparky")) as Hname by (vm_compute; reflexivity).
  destruct (construct_params gmap_order encode_as_query
              (fresh_request (self createPet_state) (VDict ∅))
              {["name" := VStr "Sparky"]} createPet_state)
    as [[request'|e] st'] eqn:Hrun; [|discriminate Hok].
  pose proof (supplied_is_encoded gmap_order encode_as_query
              (fresh_request (self createPet_state) (VDict ∅))
              {["name" := VStr "Sparky"]} createPet_state request' st'
              "name" (VStr "Sparky") Hrun Hname) as H.
  destruct H as (p & b & a & t0 & r0 & r1 & t1 & rq1 & Hp & _ & _ & Hm & _).
  exists p, r0, r1.
  split; [exact Hp | exact Hm].
Defined.

Lemma valid_call_is_handed_over_witness :
  ∃ f st',
    __call__ gmap_order encode_by_name swagger_type_name post_receive_scalar
             {["petId" := VInt 1234]} deletePet_state = (Ok f, st') ∧
    future_http_client f = http_client (swagger_spec (self deletePet_state)) ∧
    transport st' = transport deletePet_state
                    ++ [(future_http_client f, future_request f)].
Proof.
  assert (self_params deletePet_state = {["petId" := mkParam pet_spec petId_path_decl]})
    as Htable by (vm_compute; reflexivity).
  apply (valid_call_is_handed_over gmap_order encode_by_name swagger_type_name
           post_receive_scalar {["petId" := VInt 1234]} deletePet_state).
  - intros p v r. eexists. reflexivity.
  - vm_compute. reflexivity.
  - intros n v [<- _]%lookup_singleton_Some. rewrite Htable, lookup_singleton_eq.
    by eexists.
  - rewrite Htable. intros n p [<- _]%lookup_singleton_Some _.
    rewrite lookup_singleton_eq. by eexists.
Defined.

Lemma omitted_optional_adds_nothing_witness :
  (construct_params gmap_order encode_as_query
     (fresh_request (self createPet_state) (VDict ∅))
     {["name" := VStr "Sparky"]} createPet_state).1 =
  to_result (supplied_exn (operation_id_of (self createPet_state)))
    (outcome_map snd
       (supplied_pass encode_as_query (items gmap_order {["name" := VStr "Sparky"]})
          (self_params createPet_state)
          (fresh_request (self createPet_state) (VDict ∅)))).
Proof.
  assert (self_params createPet_state
          = <["name" := mkParam pet_spec name_decl]>
              {["birthday" := mkParam pet_spec birthday_decl]})
    as Htable by (vm_compute; reflexivity).
  apply omitted_optional_adds_nothing. rewrite Htable.
  intros n p [[<- _]|[_ [_ <-]%lookup_singleton_Some]]%lookup_insert_Some Hn.
  - by rewrite lookup_singleton_eq in Hn.
  - done.
Defined.

Lemma response_future_raises_witness :
  text server_error_response ≠ "" ∧
  ((SwaggerError "Response doesn't match any expected responses: <Response [500]>"
      = KeyError "responses" ∧ responses (op_spec (self deletePet_state)) = None) ∨
   (SwaggerError "Response doesn't match any expected responses: <Response [500]>"
      = SwaggerError ("Response doesn't match any expected responses: "
                      +:+ response_str server_error_response) ∧
    status_code server_error_response ≠ 200 ∧
    ∃ tbl, responses (op_spec (self deletePet_state)) = Some tbl ∧
           tbl !! pretty (status_code server_error_response) = None ∧
           tbl !! "default" = None) ∨
   (∃ msg, SwaggerError "Response doesn't match any expected responses: <Response [500]>"
             = Propagated In_response_json msg ∧
           json server_error_response = Raise msg) ∨
   (∃ msg, SwaggerError "Response doesn't match any expected responses: <Response [500]>"
             = Propagated In_get_swagger_type msg) ∨
   (∃ msg, SwaggerError "Response doesn't match any expected responses: <Response [500]>"
             = Propagated In_post_receive msg)).
Proof.
  apply (response_future_raises swagger_type_name post_receive_scalar
           server_error_response ∅ deletePet_state _ deletePet_state).
  vm_compute. reflexivity.
Defined.

Lemma selected_schema_types_the_result_witness :
  response_future swagger_type_name post_receive_scalar spark_response ∅ createPet_state
  = (Ok (VStr "Spark is born"),
     mkState (self createPet_state) (heap createPet_state)
             (log createPet_state
              ++ [Debug_response_dict (JStr "Spark is born");
                  Debug_response_spec (Some (mkResponseSpec (Some string_schema)));
                  Debug_swagger_type (Some "string")])
             (transport createPet_state)).
Proof.
  apply (proj1 (selected_schema_types_the_result swagger_type_name post_receive_scalar
                  spark_response ∅ createPet_state
                  {["200" := mkResponseSpec (Some string_schema)]}
                  (mkResponseSpec (Some string_schema)) (JStr "Spark is born")
                  ltac:(discriminate) eq_refl
                  (or_introl eq_refl) eq_refl) "string" eq_refl).
Defined.
